(** * intnslib: the stack (bump) allocator and the object pool

    A shallow embedding of [intns::memory]: [Alignment.hpp],
    [StackAllocator.hpp] / [StackAllocator.cpp], [ObjectPool.hpp] /
    [ObjectPool.tpp] (with [PoolLease]).

    Conventions of the embedding.
    - [std::uintptr_t] and [std::size_t] are 64-bit unsigned integers: a value
      is a [Z] in [[0, 2^64)] and every arithmetic operation of the source is
      written with its wrap-around ([Word.add], [Word.sub], [Word.lnot]).
    - A pointer is its address; [nullptr] is address [0].
    - A [throw std::runtime_error(msg)] is the result [Throw (runtime_error msg)];
      a member function that can throw returns its result together with the
      object as the call leaves it.
    - The pool's [std::deque<T>] is a [list T] whose last element is [back()].
      The mutex only serialises whole calls, so each member function is one
      atomic step on the pool. *)

From Stdlib Require Import String ZArith List Lia Bool Arith.
Import ListNotations.

Local Open Scope Z_scope.

(* ================================================================= *)
(** ** Exceptions and results *)

Inductive exn : Type :=
| runtime_error (what : string).

Inductive result (A : Type) : Type :=
| Ok (a : A)
| Throw (e : exn).

Arguments Ok {A} a.
Arguments Throw {A} e.

Definition is_ok {A : Type} (r : result A) : bool :=
  match r with Ok _ => true | Throw _ => false end.

(* ================================================================= *)
(** ** 64-bit unsigned arithmetic *)

Module Word.

Definition width : Z := 64.
Definition modulus : Z := 2 ^ width.

Definition wrap (z : Z) : Z := z mod modulus.

Definition add (a b : Z) : Z := wrap (a + b).
Definition sub (a b : Z) : Z := wrap (a - b).
Definition lnot (a : Z) : Z := wrap (Z.lnot a).

(** The values a [std::size_t] or [std::uintptr_t] can hold. *)
Definition in_range (z : Z) : Prop := 0 <= z < modulus.

End Word.

(* ================================================================= *)
(** ** Alignment.hpp *)

Module Alignment.

(** [(addr + alignment - 1) & ~(alignment - 1)] *)
Definition align_address (addr alignment : Z) : Z :=
  Z.land (Word.sub (Word.add addr alignment) 1)
         (Word.lnot (Word.sub alignment 1)).

(** [(addr & (alignment - 1)) == 0] *)
Definition is_aligned (addr alignment : Z) : bool :=
  Z.land addr (Word.sub alignment 1) =? 0.

(** [value != 0 && (value & (value - 1)) == 0] *)
Definition is_power_of_two (value : Z) : bool :=
  negb (value =? 0) && (Z.land value (Word.sub value 1) =? 0).

End Alignment.

(* ================================================================= *)
(** ** StackAllocator *)

Module StackAllocator.
Import Alignment.

Definition nullptr : Z := 0.

Record t : Type := mk {
  start_marker_ : Z;   (* beginning of the stack *)
  active_marker_ : Z;  (* current position of the stack *)
  capacity_ : Z;       (* the full size of the stack *)
  owns_memory_ : bool  (* ownership of the start marker *)
}.

Definition set_active (s : t) (m : Z) : t :=
  mk (start_marker_ s) m (capacity_ s) (owns_memory_ s).

(** The messages of the exceptions the allocator throws. The spec calls the
    first two [AllocationFailure], the next three [InvalidArgument] and the
    last [InvalidCheckpoint]. *)
Definition ZeroCapacity : exn :=
  runtime_error "StackAllocator: Cannot allocate 0 memory for stack.".
Definition MallocFailed : exn :=
  runtime_error "StackAllocator: Failed to allocate memory.".
Definition NullBuffer : exn :=
  runtime_error "StackAllocator: Handed null memory pointer.".
Definition ZeroBuffer : exn :=
  runtime_error "StackAllocator: Cannot manage 0-byte buffer".
Definition BufferTooSmall : exn :=
  runtime_error "StackAllocator: Buffer too small after alignment".
Definition InvalidCheckpoint : exn :=
  runtime_error "StackAllocator::restore_checkpoint: Invalid checkpoint".

(** [StackAllocator(size_type capacity)]; [memory] is what [std::malloc]
    returned ([nullptr] when it failed). *)
Definition ctor_owned (memory capacity : Z) : result t :=
  if capacity =? 0 then Throw ZeroCapacity
  else if memory =? nullptr then Throw MallocFailed
  else Ok (mk memory memory capacity true).

(** [StackAllocator(void* memory, size_type size)]; [max_align] is the
    platform constant [alignof(std::max_align_t)]. *)
Definition ctor_buffer (max_align memory size : Z) : result t :=
  if memory =? nullptr then Throw NullBuffer
  else if size =? 0 then Throw ZeroBuffer
  else
    let min_usable_space := max_align in
    let addr := memory in
    let start := align_address addr max_align in
    let offset := Word.sub start addr in
    if negb (offset =? 0) && (Word.add offset min_usable_space >=? size)
    then Throw BufferTooSmall
    else Ok (mk start start (Word.sub size offset) false).

(** [alloc(size, alignment)]: the returned pointer ([nullptr] on failure)
    and the allocator after the call. *)
Definition alloc (s : t) (size alignment : Z) : Z * t :=
  if (size =? 0) || (size >? capacity_ s) then (nullptr, s)
  else if negb (is_power_of_two alignment) || (alignment >? capacity_ s)
  then (nullptr, s)
  else
    let aligned_pos := align_address (active_marker_ s) alignment in
    let last_valid_start_pos :=
      Word.sub (Word.add (start_marker_ s) (capacity_ s)) size in
    if (aligned_pos <? start_marker_ s) || (aligned_pos >? last_valid_start_pos)
    then (nullptr, s)
    else (aligned_pos, set_active s (Word.add aligned_pos size)).

(** [alloc_t<T>()] with [type_size = sizeof(T)] and [align_req = alignof(T)]. *)
Definition alloc_t (s : t) (type_size align_req : Z) : Z * t :=
  if type_size >? capacity_ s then (nullptr, s)
  else
    let aligned_pos := align_address (active_marker_ s) align_req in
    let last_valid_start_pos :=
      Word.sub (Word.add (start_marker_ s) (capacity_ s)) type_size in
    if (aligned_pos <? start_marker_ s) || (aligned_pos >? last_valid_start_pos)
    then (nullptr, s)
    else (aligned_pos, set_active s (Word.add aligned_pos type_size)).

Definition save_checkpoint (s : t) : Z := active_marker_ s.

Definition restore_checkpoint (s : t) (checkpoint : Z) : result unit * t :=
  if (checkpoint <? start_marker_ s)
     || (checkpoint >? Word.add (start_marker_ s) (capacity_ s))
  then (Throw InvalidCheckpoint, s)
  else (Ok tt, set_active s checkpoint).

Definition bytes_used (s : t) : Z :=
  Word.sub (active_marker_ s) (start_marker_ s).

Definition bytes_remaining (s : t) : Z :=
  Word.sub (capacity_ s) (bytes_used s).

Definition capacity (s : t) : Z := capacity_ s.

Definition reset (s : t) : t := set_active s (start_marker_ s).

(** *** Sequences of calls *)

Inductive op : Type :=
| Alloc (size alignment : Z)
| Reset
| Restore (checkpoint : Z).

(** What a call handed back to its caller. *)
Inductive event : Type :=
| Allocated (addr size alignment : Z)  (* [alloc] returned [addr] *)
| NoSpace (size alignment : Z)         (* [alloc] returned [nullptr] *)
| WasReset
| Restored (checkpoint : Z)
| RestoreThrew (checkpoint : Z).

Definition step (s : t) (o : op) : event * t :=
  match o with
  | Alloc size alignment =>
      let '(p, s') := alloc s size alignment in
      ((if p =? nullptr then NoSpace size alignment
        else Allocated p size alignment), s')
  | Reset => (WasReset, reset s)
  | Restore c =>
      match restore_checkpoint s c with
      | (Ok _, s') => (Restored c, s')
      | (Throw _, s') => (RestoreThrew c, s')
      end
  end.

(** The allocator after each call of a sequence, with what the call
    returned. *)
Fixpoint run (s : t) (ops : list op) : list (event * t) :=
  match ops with
  | [] => []
  | o :: rest => let '(e, s') := step s o in (e, s') :: run s' rest
  end.

(** The allocator after a sequence of [alloc(size, alignment)] calls. *)
Fixpoint alloc_all (s : t) (reqs : list (Z * Z)) : t :=
  match reqs with
  | [] => s
  | (size, alignment) :: rest => alloc_all (snd (alloc s size alignment)) rest
  end.

(** *** The data-model invariant

    The managed region [[base, base + capacity)] is a real block of memory:
    it does not start at the null address and ends inside the address
    space; the cursor stays inside it. *)
Definition region_ok (s : t) : Prop :=
  0 < start_marker_ s /\ 0 <= capacity_ s /\
  start_marker_ s + capacity_ s < Word.modulus.

Definition cursor_ok (s : t) : Prop :=
  start_marker_ s <= active_marker_ s <= start_marker_ s + capacity_ s.

Definition wf (s : t) : Prop := region_ok s /\ cursor_ok s.

(** [[addr, addr + size)] lies within [[base, base + capacity)]. *)
Definition in_region (s : t) (addr size : Z) : Prop :=
  start_marker_ s <= addr /\ addr + size <= start_marker_ s + capacity_ s.

(** The arguments of a call are [size_type] / [checkpoint_t] values. *)
Definition op_in_range (o : op) : Prop :=
  match o with
  | Alloc size alignment => Word.in_range size /\ Word.in_range alignment
  | Reset => True
  | Restore c => Word.in_range c
  end.

(** [s'] manages the same region as [s]. *)
Definition same_region (s s' : t) : Prop :=
  start_marker_ s' = start_marker_ s /\ capacity_ s' = capacity_ s /\
  owns_memory_ s' = owns_memory_ s.

(** What the caller may rely on for one returned event. *)
Definition event_ok (s : t) (e : event) : Prop :=
  match e with
  | Allocated addr size alignment =>
      addr mod alignment = 0 /\ 0 < size /\ in_region s addr size
  | _ => True
  end.

End StackAllocator.

(* ================================================================= *)
(** ** ObjectPool *)

Local Close Scope Z_scope.
Local Open Scope nat_scope.

Module ObjectPool.

(** The concepts [AcquireHook<Policy, T>] and [ReleaseHook<Policy, T>]: a
    policy supplies [on_acquire(T&)] / [on_release(T&)], both [noexcept]. A
    hook receives the object by reference, so it is the function from the
    object before the call to the object after it. *)
Class AcquireHook (T : Type) : Type := { on_acquire : T -> T }.
Class ReleaseHook (T : Type) : Type := { on_release : T -> T }.

(** [std::is_default_constructible_v<T>]: [value_type()] either yields an
    object or throws. The argument is the number of objects the container
    holds when the constructor runs, so that a construction may fail
    partway through a batch. *)
Class DefaultConstructible (T : Type) : Type :=
  { value_type_ctor : nat -> result T }.

(** [NoOpPoolPolicy<U>], the default for both hooks. *)
Definition NoOpPoolPolicy_acquire (U : Type) : AcquireHook U :=
  {| on_acquire := fun obj => obj |}.
Definition NoOpPoolPolicy_release (U : Type) : ReleaseHook U :=
  {| on_release := fun obj => obj |}.

(** The exceptions of the pool; the spec calls them [InvalidArgument],
    [PoolExhausted], [LimitExceeded]. *)
Definition InvalidArgument : exn :=
  runtime_error "ObjectPool::ObjectPool: initial size is > size limit.".
Definition PoolExhausted : exn :=
  runtime_error "ObjectPool::take: queue is empty.".
Definition LimitExceeded : exn :=
  runtime_error "ObjectPool::add: unable to add as size limit reached.".
Definition ReserveZero : exn :=
  runtime_error "ObjectPool::reserve: target size is zero.".
Definition ReserveOverLimit : exn :=
  runtime_error "ObjectPool::reserve: cannot reserve more than size limit.".

Record t (T : Type) : Type := mk {
  objects_ : list T;          (* the internal queue, [back()] last *)
  size_limit_ : option nat    (* [std::nullopt] is unlimited *)
}.
Arguments mk {T} objects_ size_limit_.
Arguments objects_ {T} _.
Arguments size_limit_ {T} _.

Section Pool.
Context {T : Type} {A : AcquireHook T} {R : ReleaseHook T}
        {D : DefaultConstructible T}.

(** [objects_.back()] followed by [objects_.pop_back()]: the remaining
    queue and the removed object, [None] on an empty queue. *)
Fixpoint pop_back (d : list T) : option (list T * T) :=
  match d with
  | [] => None
  | x :: rest =>
      match pop_back rest with
      | None => Some ([], x)
      | Some (front, y) => Some (x :: front, y)
      end
  end.

(** The loop
    [for (i = 0; i < n; i++) { objects_.emplace_back(value_type());
    R::on_release(objects_.back()); }]: the queue as the loop leaves it
    and the exception that ended it early, if any. *)
Fixpoint emplace_released (n : nat) (objs : list T) : list T * option exn :=
  match n with
  | O => (objs, None)
  | S n' =>
      match value_type_ctor (length objs) with
      | Throw e => (objs, Some e)
      | Ok v => emplace_released n' (objs ++ [on_release v])
      end
  end.

(** [size_limit_.has_value() && n > size_limit_.value()] *)
Definition over_limit (limit : option nat) (n : nat) : bool :=
  match limit with
  | Some l => l <? n
  | None => false
  end.

(** [size_limit_.has_value() && objects_.size() >= size_limit_.value()] *)
Definition at_limit (p : t T) : bool :=
  match size_limit_ p with
  | Some l => l <=? length (objects_ p)
  | None => false
  end.

(** [ObjectPool()] and [ObjectPool(queue_type&& src)] *)
Definition ctor_default : t T := mk [] None.
Definition ctor_queue (src : list T) : t T := mk src None.

(** [ObjectPool(size_type init_size, std::optional<size_type> limit)] *)
Definition ctor (init_size : nat) (limit : option nat) : result (t T) :=
  if over_limit limit init_size then Throw InvalidArgument
  else
    let size_limit :=
      match limit with
      | Some 0 => None  (* 0 can also mean "unlimited" *)
      | _ => limit
      end in
    match emplace_released init_size [] with
    | (_, Some e) => Throw e
    | (objs, None) => Ok (mk objs size_limit)
    end.

Definition take (p : t T) : result T * t T :=
  match pop_back (objects_ p) with
  | None => (Throw PoolExhausted, p)
  | Some (front, value) => (Ok (on_acquire value), mk front (size_limit_ p))
  end.


Definition add (p : t T) (back : T) : result unit * t T :=
  if at_limit p then (Throw LimitExceeded, p)
  else (Ok tt, mk (objects_ p ++ [on_release back]) (size_limit_ p)).

(** The hook is [noexcept] and [push_back] does not fail here, so the
    [catch (...)] branch of the source is never entered. *)
Definition try_add (p : t T) (back : T) : bool * t T :=
  if at_limit p then (false, p)
  else (true, mk (objects_ p ++ [on_release back]) (size_limit_ p)).

(** [reserve_impl<ThrowOnError>(target_size)] *)
Definition reserve_impl (ThrowOnError : bool) (p : t T) (target_size : nat)
  : result bool * t T :=
  if target_size =? 0 then
    if ThrowOnError then (Throw ReserveZero, p)
    else (Ok true, p)  (* Nothing to reserve *)
  else
    let current_size := length (objects_ p) in
    if target_size <=? current_size then (Ok true, p)
    else if over_limit (size_limit_ p) target_size then
      if ThrowOnError then (Throw ReserveOverLimit, p)
      else (Ok false, p)
    else
      let to_create := target_size - current_size in
      match emplace_released to_create (objects_ p) with
      | (objs, None) => (Ok true, mk objs (size_limit_ p))
      | (objs, Some e) =>
          (* objects_.resize(current_size): rollback on error *)
          let rolled_back := mk (firstn current_size objs) (size_limit_ p) in
          if ThrowOnError then (Throw e, rolled_back)
          else (Ok false, rolled_back)
      end.


Definition try_reserve (p : t T) (target_size : nat) : result bool * t T :=
  reserve_impl false p target_size.

Definition size (p : t T) : nat := length (objects_ p).

Definition empty (p : t T) : bool :=
  match objects_ p with [] => true | _ => false end.

Definition size_limit (p : t T) : option nat := size_limit_ p.

Definition set_size_limit (p : t T) (limit : option nat) : t T :=
  mk (objects_ p) limit.

(** The invariant of the data model: [size() <= limit] whenever a limit
    is set. *)
Definition within_limit (p : t T) : Prop :=
  match size_limit_ p with
  | Some l => size p <= l
  | None => True
  end.

End Pool.

End ObjectPool.

(* ================================================================= *)
(** ** PoolLease *)

Module PoolLease.
Import ObjectPool.

(** The lease's members [obj_] and [active_]; the pool its [pool_] points
    to is the pool handed to each operation below. *)
Record t (T : Type) : Type := mk {
  obj_ : T;
  active_ : bool
}.
Arguments mk {T} obj_ active_.
Arguments obj_ {T} _.
Arguments active_ {T} _.

Section Lease.
Context {T : Type} {A : AcquireHook T} {R : ReleaseHook T}.

(** [PoolLease(Pool& p) : pool_(&p), obj_(p.take())] *)
Definition ctor (p : ObjectPool.t T) : result (t T) * ObjectPool.t T :=
  match take p with
  | (Ok value, p') => (Ok (mk value true), p')
  | (Throw e, p') => (Throw e, p')
  end.

(** [PoolLease(PoolLease&& o)]: the new lease and the moved-from one. *)
Definition move_ctor (o : t T) : t T * t T :=
  (mk (obj_ o) (active_ o), mk (obj_ o) false).

(** The body of [~PoolLease()]: [if (active_) pool_->add(std::move(obj_));].
    [Throw e] is the exception [add] raises inside the destructor. *)
Definition dtor (l : t T) (p : ObjectPool.t T) : result unit * ObjectPool.t T :=
  if active_ l then add p (obj_ l) else (Ok tt, p).

(** [release()]: the object handed to the caller and the lease after. *)
Definition release (l : t T) : T * t T :=
  (obj_ l, mk (obj_ l) false).

Definition get (l : t T) : T := obj_ l.

End Lease.

End PoolLease.

(* ================================================================= *)
(** ** The objects of [main.cpp] *)

Module Demo.
Import ObjectPool.

(** [struct Object { int value; std::string s; }] with
    [Object() : value(0), s()]. *)
Record Object : Type := mkObject { value : Z; s : string }.

#[export] Instance Object_default : DefaultConstructible Object :=
  {| value_type_ctor := fun _ => Ok (mkObject 0%Z EmptyString) |}.

(** [ObjectPool<Object>]: both policies default to [NoOpPoolPolicy<Object>]. *)
#[export] Instance Object_acquire : AcquireHook Object :=
  NoOpPoolPolicy_acquire Object.
#[export] Instance Object_release : ReleaseHook Object :=
  NoOpPoolPolicy_release Object.

Definition item_A : Object := mkObject 1%Z "A".
Definition item_B : Object := mkObject 2%Z "B".

(** A 64-byte arena at address 4096 and a run of calls on it. *)
Definition arena0 : StackAllocator.t := StackAllocator.mk 4096 4096 64 true.

Definition calls0 : list StackAllocator.op :=
  [StackAllocator.Alloc 8 8; StackAllocator.Alloc 3 1;
   StackAllocator.Alloc 16 16; StackAllocator.Restore 4100;
   StackAllocator.Alloc 100 4; StackAllocator.Restore 9000;
   StackAllocator.Alloc 8 3; StackAllocator.Reset]%Z.

End Demo.

(* ================================================================= *)
(** ** Readings of the specification used for comparison *)

Module Spec.
Local Open Scope Z_scope.

(** "The aligned address": the least multiple of [alignment] at or above
    [addr], computed without any wrap-around. *)
Definition align_up (addr alignment : Z) : Z :=
  alignment * ((addr + alignment - 1) / alignment).

(** The distance from [memory] up to the next multiple of [max_align]. *)
Definition alignment_offset (max_align memory : Z) : Z :=
  (- memory) mod max_align.

(** "The buffer is too small to hold a minimally aligned region after
    adjustment": fewer than [max_align] bytes remain past the offset. *)
Definition too_small_after_adjustment (max_align memory size : Z) : Prop :=
  size - alignment_offset max_align memory < max_align.

(** The conditions under which the specification says the caller-supplied
    buffer constructor fails. *)
Definition buffer_ctor_must_fail (max_align memory size : Z) : Prop :=
  memory = 0 \/ size = 0 \/ too_small_after_adjustment max_align memory size.

End Spec.

(* ================================================================= *)
(** ** StackCheckpoint *)

Module StackCheckpoint.

(** The guard's member [saved_]; its [allocator_] reference is the allocator
    handed to the destructor. *)
Record t : Type := mk { saved_ : Z }.

(** [StackCheckpoint(StackAllocator& a)
      : allocator_(a), saved_(a.save_checkpoint())] *)
Definition ctor (a : StackAllocator.t) : t :=
  mk (StackAllocator.save_checkpoint a).

(** The body of [~StackCheckpoint()]:
    [allocator_.restore_checkpoint(saved_)]. *)
Definition dtor (g : t) (a : StackAllocator.t)
  : result unit * StackAllocator.t :=
  StackAllocator.restore_checkpoint a (saved_ g).

End StackCheckpoint.

(* ================================================================= *)
(** ** What a run of allocator calls produced *)

Module ArenaTrace.
Import StackAllocator.
Local Open Scope Z_scope.

(** The allocator a sequence of calls leaves behind. *)
Definition exec (s : t) (ops : list op) : t :=
  fold_left (fun s' o => snd (step s' o)) ops s.

(** What the calls of a sequence returned, in order. *)
Definition events (s : t) (ops : list op) : list event :=
  map fst (run s ops).

(** The calls [alloc(size, alignment)] for a list of requests. *)
Definition alloc_ops (reqs : list (Z * Z)) : list op :=
  map (fun r => Alloc (fst r) (snd r)) reqs.

(** The blocks [(address, size)] handed out, in order. *)
Fixpoint blocks (evs : list event) : list (Z * Z) :=
  match evs with
  | [] => []
  | Allocated a size _ :: rest => (a, size) :: blocks rest
  | _ :: rest => blocks rest
  end.

(** The bytes handed out, padding not counted. *)
Definition allocated_bytes (evs : list event) : Z :=
  fold_right (fun b acc => snd b + acc) 0 (blocks evs).

(** Each block starts at or after [lo] and at or after the end of the block
    before it. *)
Fixpoint laid_out (lo : Z) (bs : list (Z * Z)) : bool :=
  match bs with
  | [] => true
  | (a, size) :: rest => (lo <=? a) && (0 <? size) && laid_out (a + size) rest
  end.

(** Where the last block of a laid out list ends ([lo] for no block). *)
Fixpoint chain_end (lo : Z) (bs : list (Z * Z)) : Z :=
  match bs with
  | [] => lo
  | (a, size) :: rest => chain_end (a + size) rest
  end.

End ArenaTrace.

(* ================================================================= *)
(** ** Sequences of pool calls and the scope of a lease *)

Module PoolTrace.
Import ObjectPool.

Section Trace.
Context {T : Type} {A : AcquireHook T} {R : ReleaseHook T}.

(** [pool.add(x)] for each [x] of a list, in order; the first exception ends
    the sequence. *)
Fixpoint add_all (p : t T) (xs : list T) : result unit * t T :=
  match xs with
  | [] => (Ok tt, p)
  | x :: rest =>
      match add p x with
      | (Ok _, p') => add_all p' rest
      | (Throw e, p') => (Throw e, p')
      end
  end.

(** [n] calls of [pool.take()], collecting what they return; the first
    exception ends the sequence. *)
Fixpoint take_n (n : nat) (p : t T) : result (list T) * t T :=
  match n with
  | O => (Ok [], p)
  | S n' =>
      match take p with
      | (Throw e, p') => (Throw e, p')
      | (Ok v, p') =>
          match take_n n' p' with
          | (Ok vs, p'') => (Ok (v :: vs), p'')
          | (Throw e, p'') => (Throw e, p'')
          end
      end
  end.

(** A write to the leased object through [get()] or [operator->]. *)
Definition modify (f : T -> T) (l : PoolLease.t T) : PoolLease.t T :=
  PoolLease.mk (f (PoolLease.obj_ l)) (PoolLease.active_ l).

(** The block [{ PoolLease lease(pool); use(lease.get()); }] of
    [test_object_pool]: the lease is constructed, its object is used, and
    the lease is destroyed at the end of the block. *)
Definition scoped (p : t T) (use : T -> T) : result unit * t T :=
  match PoolLease.ctor p with
  | (Throw e, p') => (Throw e, p')
  | (Ok l, p') => PoolLease.dtor (modify use l) p'
  end.

End Trace.

End PoolTrace.

(* ================================================================= *)
(** ** What a reservation leaves in the pool *)

Module PoolShape.
Import ObjectPool.

Section Shape.
Context {T : Type} {R : ReleaseHook T} {D : DefaultConstructible T}.


End Shape.

End PoolShape.

(* ================================================================= *)
(** ** IoTypes.hpp *)

From Stdlib Require Import DecimalString.

Module IoTypes.
Local Open Scope Z_scope.

Inductive Endianness : Type :=
| kLittle  (* Little-endian byte order *)
| kBig.    (* Big-endian byte order *)

Definition Endianness_eqb (a b : Endianness) : bool :=
  match a, b with
  | kLittle, kLittle | kBig, kBig => true
  | _, _ => false
  end.

(** Conversion to [uint16_t], [uint32_t], [uint64_t]. *)
Definition wrap16 (z : Z) : Z := z mod 2 ^ 16.
Definition wrap32 (z : Z) : Z := z mod 2 ^ 32.
Definition wrap64 (z : Z) : Z := z mod 2 ^ 64.

(** The three functions are embedded from their portable branch (the
    last [#else]); the compiler intrinsics of the other branches are
    specified to return the same byte-swapped value.

    [(x << 8) | (x >> 8)], computed on [int] and converted to [uint16_t]. *)
Definition bswap_16 (x : Z) : Z :=
  wrap16 (Z.lor (Z.shiftl x 8) (Z.shiftr x 8)).

Definition bswap_32 (x : Z) : Z :=
  Z.lor (Z.lor (Z.lor
    (Z.land (wrap32 (Z.shiftl x 24)) 0xFF000000)
    (Z.land (wrap32 (Z.shiftl x 8)) 0x00FF0000))
    (Z.land (Z.shiftr x 8) 0x0000FF00))
    (Z.land (Z.shiftr x 24) 0x000000FF).

Definition bswap_64 (x : Z) : Z :=
  Z.lor (Z.lor (Z.lor (Z.lor (Z.lor (Z.lor (Z.lor
    (Z.land (wrap64 (Z.shiftl x 56)) 0xFF00000000000000)
    (Z.land (wrap64 (Z.shiftl x 40)) 0x00FF000000000000))
    (Z.land (wrap64 (Z.shiftl x 24)) 0x0000FF0000000000))
    (Z.land (wrap64 (Z.shiftl x 8)) 0x000000FF00000000))
    (Z.land (Z.shiftr x 8) 0x00000000FF000000))
    (Z.land (Z.shiftr x 24) 0x0000000000FF0000))
    (Z.land (Z.shiftr x 40) 0x000000000000FF00))
    (Z.land (Z.shiftr x 56) 0x00000000000000FF).

(** A byte is a [uint8_t]. *)
Definition is_byte (b : Z) : Prop := 0 <= b < 256.

(** The unsigned integer whose bytes, least significant first, are [bs]. *)
Fixpoint le_combine (bs : list Z) : Z :=
  match bs with
  | [] => 0
  | b :: rest => b + 256 * le_combine rest
  end.

(** The [n] low bytes of [x], least significant first. *)
Fixpoint le_split (n : nat) (x : Z) : list Z :=
  match n with
  | O => []
  | S n' => x mod 256 :: le_split n' (x / 256)
  end.

(** The value of a byte sequence read in the given byte order. *)
Definition decode (E : Endianness) (bs : list Z) : Z :=
  match E with
  | kLittle => le_combine bs
  | kBig => le_combine (rev bs)
  end.

End IoTypes.

(* ================================================================= *)
(** ** MemoryReader *)

Module MemoryReader.
Import IoTypes.
Local Open Scope Z_scope.

Local Notation "a +++ b" := (String.append a b)
  (at level 60, right associativity).

(** The exceptions of the reader, with their messages. *)
Inductive exn : Type :=
| out_of_range (what : string)
| invalid_argument (what : string).

(** How a call ends: it returns, it throws, or it would touch bytes that
    are not all inside the buffer, which this embedding does not follow
    further. *)
Inductive outcome (A : Type) : Type :=
| Ret (a : A)
| Raise (e : exn)
| Outside.

Arguments Ret {A} a.
Arguments Raise {A} e.
Arguments Outside {A}.

(** [std::to_string] of a [size_t]. *)
Definition to_string (n : Z) : string :=
  NilZero.string_of_uint (N.to_uint (Z.to_N n)).

(** The reader's view of the buffer: the bytes [data_] points to, their
    number and the read position. *)
Record t : Type := mk {
  data_ : list Z;
  size_ : Z;
  position_ : Z
}.

Definition set_pos (r : t) (pos : Z) : t := mk (data_ r) (size_ r) pos.

(** The [count] bytes at [data_ + pos], when they all lie inside the
    buffer. *)
Definition bytes_at (r : t) (pos count : Z) : option (list Z) :=
  if (0 <=? pos) && (0 <=? count)
     && (pos + count <=? Z.of_nat (length (data_ r)))
  then Some (firstn (Z.to_nat count) (skipn (Z.to_nat pos) (data_ r)))
  else None.

(** [std::memchr(start, 0, n)]: the index of the first zero byte. *)
Fixpoint find_zero (bs : list Z) : option nat :=
  match bs with
  | [] => None
  | b :: rest =>
      if b =? 0 then Some O
      else match find_zero rest with
           | Some k => Some (S k)
           | None => None
           end
  end.

(** Conversion of an [n]-bit unsigned value to the signed type of the same
    width. *)
Definition to_signed (n : Z) (v : Z) : Z :=
  if v <? 2 ^ (n - 1) then v else v - 2 ^ n.

Section Reader.
(** The template argument [E] and the platform's [std::endian::native]. *)
Variables (E native : Endianness).

(** [MemoryReader(buffer, position)], for a vector as for a span. *)
Definition ctor (buffer : list Z) (position : Z) : outcome t :=
  let size := Z.of_nat (length buffer) in
  if position >? size then
    Raise (out_of_range ("Initial position " +++ to_string position +++
                         " exceeds buffer size " +++ to_string size))
  else Ret (mk buffer size position).

Definition size (r : t) : Z := size_ r.
Definition position (r : t) : Z := position_ r.
Definition remaining (r : t) : Z := Word.sub (size_ r) (position_ r).

Definition set_position (r : t) (pos : Z) : t :=
  set_pos r (if pos >? size_ r then size_ r else pos).

Definition skip (r : t) (bytes : Z) : t :=
  set_pos r (Z.min (Word.add (position_ r) bytes) (size_ r)).

(** [std::memcpy(&value, data_ + position_, n)]: the value whose object
    representation are the bytes copied. *)
Definition load (bytes : list Z) : Z := decode native bytes.

(** [if constexpr (E != native_endian()) value = bswap(value)] *)
Definition to_order (bswap : Z -> Z) (value : Z) : Z :=
  if Endianness_eqb E native then value else bswap value.

Definition read_u8 (r : t) : outcome Z * t :=
  if position_ r >=? size_ r then
    (Raise (out_of_range ("Cannot read uint8_t: position " +++
                          to_string (position_ r) +++ " >= size " +++
                          to_string (size_ r))), r)
  else
    match nth_error (data_ r) (Z.to_nat (position_ r)) with
    | Some b => (Ret b, set_pos r (Word.add (position_ r) 1))
    | None => (Outside, r)
    end.

Definition read_u16 (r : t) : outcome Z * t :=
  if Word.add (position_ r) 2 >? size_ r then
    (Raise (out_of_range ("Cannot read uint16_t: need 2 bytes, only " +++
                          to_string (remaining r) +++ " available")), r)
  else
    match bytes_at r (position_ r) 2 with
    | Some bytes =>
        (Ret (to_order bswap_16 (load bytes)),
         set_pos r (Word.add (position_ r) 2))
    | None => (Outside, r)
    end.

Definition read_u32 (r : t) : outcome Z * t :=
  if Word.add (position_ r) 4 >? size_ r then
    (Raise (out_of_range ("Cannot read uint32_t: need 4 bytes, only " +++
                          to_string (remaining r) +++ " available")), r)
  else
    match bytes_at r (position_ r) 4 with
    | Some bytes =>
        (Ret (to_order bswap_32 (load bytes)),
         set_pos r (Word.add (position_ r) 4))
    | None => (Outside, r)
    end.

Definition read_u64 (r : t) : outcome Z * t :=
  if Word.add (position_ r) 8 >? size_ r then
    (Raise (out_of_range ("Cannot read uint64_t: need 8 bytes, only " +++
                          to_string (remaining r) +++ " available")), r)
  else
    match bytes_at r (position_ r) 8 with
    | Some bytes =>
        (Ret (to_order bswap_64 (load bytes)),
         set_pos r (Word.add (position_ r) 8))
    | None => (Outside, r)
    end.

(** [static_cast] of what the unsigned read returned. *)
Definition cast_result (n : Z) (o : outcome Z * t) : outcome Z * t :=
  match o with
  | (Ret v, r') => (Ret (to_signed n v), r')
  | other => other
  end.

Definition read_s8 (r : t) : outcome Z * t := cast_result 8 (read_u8 r).
Definition read_s16 (r : t) : outcome Z * t := cast_result 16 (read_u16 r).
Definition read_s32 (r : t) : outcome Z * t := cast_result 32 (read_u32 r).
Definition read_s64 (r : t) : outcome Z * t := cast_result 64 (read_u64 r).

(** [read_bytes(dest, bytes)]: the bytes copied to [dest]. *)
Definition read_bytes (r : t) (dest bytes : Z) : outcome (list Z) * t :=
  if dest =? 0 then
    (Raise (invalid_argument "Destination pointer cannot be null"), r)
  else if Word.add (position_ r) bytes >? size_ r then
    (Raise (out_of_range ("Cannot read " +++ to_string bytes +++
                          " bytes: only " +++ to_string (remaining r) +++
                          " available")), r)
  else
    match bytes_at r (position_ r) bytes with
    | Some bs => (Ret bs, set_pos r (Word.add (position_ r) bytes))
    | None => (Outside, r)
    end.

(** [read_string(length)]: the characters of the string, as bytes. *)
Definition read_string (r : t) (length : Z) : outcome (list Z) * t :=
  if Word.add (position_ r) length >? size_ r then
    (Raise (out_of_range ("Cannot read string of length " +++
                          to_string length +++ ": only " +++
                          to_string (remaining r) +++ " bytes available")), r)
  else
    match bytes_at r (position_ r) length with
    | Some bs => (Ret bs, set_pos r (Word.add (position_ r) length))
    | None => (Outside, r)
    end.

Definition read_cstring (r : t) : outcome (list Z) * t :=
  match bytes_at r (position_ r) (remaining r) with
  | None => (Outside, r)
  | Some rest =>
      match find_zero rest with
      | Some k =>
          (* [end] is inside the buffer: the terminator is stepped over *)
          let length := Z.of_nat k in
          (Ret (firstn k rest),
           set_pos r (Word.add (position_ r) (Word.add length 1)))
      | None =>
          (* No null terminator - read to end *)
          let length := Word.sub (size_ r) (position_ r) in
          (Ret rest,
           set_pos r (Word.add (position_ r) (Word.add length 0)))
      end
  end.

Definition peek_u8 (r : t) : outcome Z :=
  if position_ r >=? size_ r then
    Raise (out_of_range ("Cannot peek uint8_t: position " +++
                         to_string (position_ r) +++ " >= size " +++
                         to_string (size_ r)))
  else
    match nth_error (data_ r) (Z.to_nat (position_ r)) with
    | Some b => Ret b
    | None => Outside
    end.

Definition peek_u16 (r : t) : outcome Z :=
  if Word.add (position_ r) 2 >? size_ r then
    Raise (out_of_range ("Cannot peek uint16_t: need 2 bytes, only " +++
                         to_string (Word.sub (size_ r) (position_ r)) +++
                         " available"))
  else
    match bytes_at r (position_ r) 2 with
    | Some bytes => Ret (to_order bswap_16 (load bytes))
    | None => Outside
    end.

End Reader.

(** A reader over a real buffer: [size_] is the number of bytes, which a
    vector or span cannot have more of than [PTRDIFF_MAX]; the position is
    inside the buffer or at its end. *)
Definition wf (r : t) : Prop :=
  size_ r = Z.of_nat (length (data_ r))
  /\ size_ r <= 2 ^ 63 - 1
  /\ 0 <= position_ r <= size_ r
  /\ Forall is_byte (data_ r).

(** The bytes from the position to the end of the buffer. *)
Definition rest (r : t) : list Z := skipn (Z.to_nat (position_ r)) (data_ r).

End MemoryReader.

(* ================================================================= *)
(** ** The buffer of [test_memory_reader] *)

Module IoDemo.
Local Open Scope Z_scope.

(** [std::vector<uint8_t> buffer = {0x01, 0x02, 0x03, 0x04}] and the reader
    constructed on it. *)
Definition buffer0 : list Z := [0x01; 0x02; 0x03; 0x04].
Definition reader0 : MemoryReader.t := MemoryReader.mk buffer0 4 0.

(** The bytes of ["hi"], a terminator, and ["yo"]; a reader one byte in. *)
Definition text0 : list Z := [104; 105; 0; 121; 111].
Definition reader1 : MemoryReader.t := MemoryReader.mk text0 5 1.

End IoDemo.

(* ================================================================= *)
(** * Properties *)

Local Open Scope Z_scope.

(** ** Word arithmetic and alignment *)

Section WordFacts.
Import Word Alignment.

Lemma modulus_eq : modulus = 18446744073709551616.
Proof. reflexivity. Qed.

Lemma modulus_pos : 0 < modulus.
Proof. rewrite modulus_eq; lia. Qed.

Lemma wrap_small z : in_range z -> wrap z = z.
Proof. intros Hz. apply Z.mod_small. exact Hz. Qed.

Lemma wrap_range z : in_range (wrap z).
Proof. apply Z.mod_pos_bound, modulus_pos. Qed.

Lemma wrap_ones z : wrap z = Z.land z (Z.ones width).
Proof. unfold wrap, modulus. rewrite Z.land_ones; [reflexivity | unfold width; lia]. Qed.

Lemma sub_add_1 a n : Word.sub (Word.add a n) 1 = wrap (a + n - 1).
Proof.
  unfold Word.sub, Word.add, wrap.
  rewrite Zminus_mod_idemp_l. reflexivity.
Qed.

Lemma pow2_range k : 0 <= k < width -> 0 < 2 ^ k < modulus.
Proof.
  intros Hk. split.
  - apply Z.pow_pos_nonneg; lia.
  - unfold modulus. apply Z.pow_lt_mono_r; lia.
Qed.

(** A value accepted by [is_power_of_two] is [2^k] for some bit [k]. *)
Lemma is_power_of_two_inv v :
  in_range v -> is_power_of_two v = true ->
  exists k, 0 <= k < width /\ v = 2 ^ k.
Proof.
  intros Hv Hp. unfold is_power_of_two in Hp.
  apply andb_true_iff in Hp. destruct Hp as [Hnz Hland].
  apply negb_true_iff, Z.eqb_neq in Hnz. apply Z.eqb_eq in Hland.
  assert (Hpos : 0 < v) by (unfold in_range in Hv; lia).
  unfold Word.sub in Hland. rewrite wrap_small in Hland
    by (unfold in_range in *; lia).
  destruct (Z.log2_spec v Hpos) as [Hlo Hhi].
  pose proof (Z.log2_nonneg v) as Hk.
  exists (Z.log2 v). split.
  - split; [exact Hk |].
    apply Z.log2_lt_pow2; [exact Hpos | apply Hv].
  - destruct (Z.eq_dec v (2 ^ Z.log2 v)) as [E | NE]; [exact E | exfalso].
    assert (Hlog : Z.log2 (v - 1) = Z.log2 v).
    { apply Z.log2_unique; [exact Hk | ]. unfold Z.succ in Hhi. lia. }
    assert (Hbit : Z.testbit (Z.land v (v - 1)) (Z.log2 v) = true).
    { rewrite Z.land_spec. rewrite (Z.bit_log2 v Hpos).
      rewrite <- Hlog. rewrite Z.bit_log2 by lia. reflexivity. }
    rewrite Hland, Z.bits_0 in Hbit. discriminate.
Qed.

Lemma is_power_of_two_pow2 k : 0 <= k < width -> is_power_of_two (2 ^ k) = true.
Proof.
  intros Hk. pose proof (pow2_range k Hk) as Hr.
  unfold is_power_of_two. apply andb_true_iff. split.
  - apply negb_true_iff, Z.eqb_neq. lia.
  - apply Z.eqb_eq. unfold Word.sub.
    rewrite wrap_small by (unfold in_range; lia).
    replace (2 ^ k - 1) with (Z.ones k) by (rewrite Z.ones_equiv; lia).
    apply Z.bits_inj'. intros n Hn. rewrite Z.land_spec, Z.bits_0.
    destruct (Z.lt_ge_cases n k) as [Hlt | Hge].
    + rewrite Z.pow2_bits_false by lia. reflexivity.
    + rewrite Z.ones_spec_high by lia. apply andb_false_r.
Qed.

(** Masking with [~(2^k - 1)] rounds down to a multiple of [2^k]. *)
Lemma land_lnot_mask x k :
  in_range x -> 0 <= k < width ->
  Z.land x (Word.lnot (Word.sub (2 ^ k) 1)) = 2 ^ k * (x / 2 ^ k).
Proof.
  intros Hx Hk. pose proof (pow2_range k Hk) as Hr.
  unfold Word.sub. rewrite wrap_small by (unfold in_range; lia).
  replace (2 ^ k - 1) with (Z.ones k) by (rewrite Z.ones_equiv; lia).
  unfold Word.lnot. rewrite wrap_ones.
  rewrite Z.land_assoc, (Z.land_comm x), <- Z.land_assoc.
  rewrite <- (wrap_ones x), (wrap_small x Hx).
  rewrite Z.land_comm, <- Z.ldiff_land.
  rewrite Z.ldiff_ones_r by lia.
  rewrite Z.shiftr_div_pow2, Z.shiftl_mul_pow2 by lia. lia.
Qed.

Lemma align_address_pow2 a k :
  0 <= k < width ->
  align_address a (2 ^ k) = 2 ^ k * (wrap (a + 2 ^ k - 1) / 2 ^ k).
Proof.
  intros Hk. unfold align_address. rewrite sub_add_1.
  apply land_lnot_mask; [apply wrap_range | exact Hk].
Qed.

(** The aligned address is a multiple of the alignment. *)
Lemma align_address_mod a k :
  0 <= k < width -> align_address a (2 ^ k) mod 2 ^ k = 0.
Proof.
  intros Hk. rewrite align_address_pow2 by exact Hk.
  rewrite Z.mul_comm. apply Z.mod_mul. pose proof (pow2_range k Hk). lia.
Qed.

(** Without wrap-around it is the least multiple at or above [a]. *)
Lemma align_address_bounds a k :
  0 <= k < width -> 0 <= a -> a + 2 ^ k - 1 < modulus ->
  a <= align_address a (2 ^ k) < a + 2 ^ k.
Proof.
  intros Hk Ha Hno. pose proof (pow2_range k Hk) as Hr.
  rewrite align_address_pow2 by exact Hk.
  rewrite wrap_small by (unfold in_range; lia).
  pose proof (Z.mod_pos_bound (a + 2 ^ k - 1) (2 ^ k) (proj1 Hr)) as Hm.
  pose proof (Z.div_mod (a + 2 ^ k - 1) (2 ^ k)) as Hd.
  lia.
Qed.

(** When [addr + alignment - 1] wraps around, the aligned address is [0]. *)
Lemma align_address_wrapped a k :
  0 <= k < width -> in_range a -> modulus <= a + 2 ^ k - 1 ->
  align_address a (2 ^ k) = 0.
Proof.
  intros Hk Ha Hw. pose proof (pow2_range k Hk) as Hr.
  rewrite align_address_pow2 by exact Hk.
  assert (Hwrap : wrap (a + 2 ^ k - 1) = a + 2 ^ k - 1 - modulus).
  { unfold wrap. symmetry. apply Z.mod_unique with (q := 1);
      unfold in_range in Ha; lia. }
  rewrite Hwrap. rewrite Z.div_small; [lia |].
  unfold in_range in Ha. lia.
Qed.

End WordFacts.

(** ** StackAllocator *)

Section StackAllocatorFacts.
Import Word Alignment StackAllocator.

Lemma set_active_same s : set_active s (active_marker_ s) = s.
Proof. destruct s; reflexivity. Qed.

Lemma region_add s : region_ok s ->
  Word.add (start_marker_ s) (capacity_ s) = start_marker_ s + capacity_ s.
Proof.
  intros (Hb & Hc & He). unfold Word.add. apply wrap_small.
  unfold in_range. lia.
Qed.

(** [alloc] changes nothing but the cursor. *)
Lemma alloc_same_region s size alignment :
  same_region s (snd (alloc s size alignment)).
Proof.
  unfold alloc, same_region.
  repeat match goal with
         | |- context [if ?b then _ else _] => destruct b
         end; simpl; auto.
Qed.

Lemma alloc_all_same_region reqs : forall s, same_region s (alloc_all s reqs).
Proof.
  induction reqs as [| [size alignment] rest IH]; intros s; simpl.
  - unfold same_region; auto.
  - specialize (IH (snd (alloc s size alignment))).
    pose proof (alloc_same_region s size alignment) as H0.
    unfold same_region in *. intuition congruence.
Qed.

(** The outcome of one [alloc] on a well-formed allocator: either the null
    pointer and an untouched allocator, or a non-null aligned block inside
    the region with the cursor moved to its end. *)
Lemma alloc_cases s size alignment :
  wf s -> in_range size -> in_range alignment ->
  (alloc s size alignment = (nullptr, s) /\
   (size = 0 \/ is_power_of_two alignment = false \/ alignment > capacity_ s \/
    ~ in_region s (align_address (active_marker_ s) alignment) size))
  \/
  (exists a, a = align_address (active_marker_ s) alignment /\
     alloc s size alignment = (a, set_active s (a + size)) /\
     a <> nullptr /\ 0 < size /\ size <= capacity_ s /\
     is_power_of_two alignment = true /\ alignment <= capacity_ s /\
     a mod alignment = 0 /\ in_region s a size).
Proof.
  intros [Hreg Hcur] Hsz Hal.
  pose proof (region_add s Hreg) as Hend.
  destruct Hreg as (Hb & Hc & He).
  unfold alloc, in_region. rewrite Hend.
  destruct (Z.eqb_spec size 0) as [Hz | Hz]; simpl; [left; auto |].
  destruct (Z.gtb_spec size (capacity_ s)) as [Hgt | Hle]; simpl.
  { left. split; [reflexivity |]. right; right; right. lia. }
  destruct (is_power_of_two alignment) eqn:Hp; simpl; [| left; auto].
  destruct (Z.gtb_spec alignment (capacity_ s)) as [Hagt | Hale]; simpl.
  { left. split; [reflexivity |]. right; right; left. lia. }
  destruct (is_power_of_two_inv alignment Hal Hp) as (k & Hk & ->).
  assert (Hlast : Word.sub (start_marker_ s + capacity_ s) size
                  = start_marker_ s + capacity_ s - size).
  { unfold Word.sub. apply wrap_small. unfold in_range in *. lia. }
  rewrite Hlast.
  set (a := align_address (active_marker_ s) (2 ^ k)).
  destruct (Z.ltb_spec a (start_marker_ s)) as [Hlt | Hge]; simpl.
  { left. split; [reflexivity |]. right; right; right. lia. }
  destruct (Z.gtb_spec a (start_marker_ s + capacity_ s - size)) as [Hov | Hfit]; simpl.
  { left. split; [reflexivity |]. right; right; right. lia. }
  right. exists a. split; [reflexivity |].
  assert (Hnext : Word.add a size = a + size).
  { unfold Word.add. apply wrap_small. unfold in_range in *. lia. }
  rewrite Hnext. unfold in_range in Hsz.
  repeat split; try lia; try reflexivity.
  - unfold nullptr. lia.
  - apply align_address_mod; exact Hk.
Qed.

Lemma alloc_wf s size alignment :
  wf s -> in_range size -> in_range alignment ->
  wf (snd (alloc s size alignment)).
Proof.
  intros Hwf Hsz Hal.
  destruct (alloc_cases s size alignment Hwf Hsz Hal)
    as [[-> _] | (a & _ & -> & _ & Hpos & _ & _ & _ & _ & Hin)]; simpl.
  - exact Hwf.
  - destruct Hwf as [Hreg _]. split; [exact Hreg |].
    unfold cursor_ok, in_region in *. simpl. lia.
Qed.

Lemma restore_cases s c :
  region_ok s ->
  (restore_checkpoint s c = (Throw InvalidCheckpoint, s) /\
   (c < start_marker_ s \/ start_marker_ s + capacity_ s < c))
  \/
  (restore_checkpoint s c = (Ok tt, set_active s c) /\
   start_marker_ s <= c <= start_marker_ s + capacity_ s).
Proof.
  intros Hreg. unfold restore_checkpoint. rewrite (region_add s Hreg).
  destruct (Z.ltb_spec c (start_marker_ s)); simpl; [left; split; [reflexivity | lia] |].
  destruct (Z.gtb_spec c (start_marker_ s + capacity_ s)); simpl.
  - left; split; [reflexivity | lia].
  - right; split; [reflexivity | lia].
Qed.

(** One call keeps the allocator well-formed, keeps its region, and what it
    returns is safe to use. *)
Lemma step_safe s o :
  wf s -> op_in_range o ->
  event_ok s (fst (step s o)) /\ wf (snd (step s o)) /\
  same_region s (snd (step s o)).
Proof.
  intros Hwf Hin. destruct o as [size alignment | | c]; simpl in *.
  - destruct Hin as [Hsz Hal].
    pose proof (alloc_wf s size alignment Hwf Hsz Hal) as Hwf'.
    pose proof (alloc_same_region s size alignment) as Hsame.
    destruct (alloc_cases s size alignment Hwf Hsz Hal)
      as [[E _] | (a & _ & E & Hnn & Hpos & _ & _ & _ & Hmod & Hreg)];
      rewrite E in *; simpl in *.
    + auto.
    + destruct (Z.eqb_spec a nullptr) as [E0 | _]; [contradiction |].
      simpl. auto.
  - destruct Hwf as [Hreg Hcur]. repeat split; try apply Hreg; simpl; try lia.
    destruct Hreg as (? & ? & ?). lia.
  - destruct Hwf as [Hreg Hcur].
    destruct (restore_cases s c Hreg) as [[E _] | [E Hc]]; rewrite E; simpl.
    + split; [exact I |]. split; [split; assumption |].
      unfold same_region; auto.
    + split; [exact I |]. split; [split; [exact Hreg | exact Hc] |].
      unfold same_region; auto.
Qed.

Lemma event_ok_same_region s s' e :
  same_region s s' -> event_ok s' e -> event_ok s e.
Proof.
  intros (Hb & Hc & _). destruct e; simpl; auto.
  unfold in_region. rewrite Hb, Hc. auto.
Qed.

(** C3. For every well-formed allocator and every sequence of [alloc],
    [reset] and [restore_checkpoint] calls: each address [alloc] returns is
    a multiple of the requested alignment and its block [[a, a + size)]
    lies within [[base, base + capacity)]; after every call the allocator
    still manages the same region and [base <= cursor <= base + capacity]. *)
Theorem run_safe ops : forall s,
  wf s -> Forall op_in_range ops ->
  Forall (fun es => event_ok s (fst es) /\ cursor_ok (snd es) /\
                    same_region s (snd es))
         (run s ops).
Proof.
  induction ops as [| o rest IH]; intros s Hwf Hall; simpl.
  - constructor.
  - inversion Hall as [| ? ? Ho Hrest]; subst.
    destruct (step_safe s o Hwf Ho) as (Hev & Hwf' & Hsame).
    destruct (step s o) as [e s'] eqn:Hstep. simpl in *.
    constructor.
    + simpl. split; [exact Hev |]. split; [apply Hwf' | exact Hsame].
    + specialize (IH s' Hwf' Hrest).
      eapply Forall_impl; [| exact IH].
      intros [e2 s2] (H1 & H2 & H3). simpl in *.
      split; [eapply event_ok_same_region; eauto |].
      split; [exact H2 |].
      unfold same_region in *. intuition congruence.
Qed.

End StackAllocatorFacts.

Section AllocOutcome.
Import Word Alignment StackAllocator.

Lemma align_up_ge a n : 0 < n -> a <= Spec.align_up a n.
Proof.
  intros Hn. unfold Spec.align_up.
  pose proof (Z.mod_pos_bound (a + n - 1) n Hn).
  pose proof (Z.div_mod (a + n - 1) n). lia.
Qed.

Lemma modulus_split k : 0 <= k < width -> modulus = 2 ^ k * 2 ^ (width - k).
Proof.
  intros Hk. unfold modulus. rewrite <- Z.pow_add_r by lia.
  f_equal. lia.
Qed.

(** The address [align_address] computes fits the region exactly when the
    mathematically aligned address does: a wrapped computation yields [0],
    which is below every region. *)
Lemma in_region_align_up s size k :
  wf s -> 0 <= k < width -> 0 < size ->
  in_region s (align_address (active_marker_ s) (2 ^ k)) size <->
  in_region s (Spec.align_up (active_marker_ s) (2 ^ k)) size.
Proof.
  intros [(Hb & Hc & He) Hcur] Hk Hsz. pose proof (pow2_range k Hk) as Hr.
  unfold cursor_ok in Hcur.
  destruct (Z.lt_ge_cases (active_marker_ s + 2 ^ k - 1) modulus) as [Hno | Hw].
  - rewrite align_address_pow2 by exact Hk.
    rewrite wrap_small by (unfold in_range; lia). reflexivity.
  - rewrite align_address_wrapped by (unfold in_range; solve [auto | lia]).
    assert (Hbig : modulus <= Spec.align_up (active_marker_ s) (2 ^ k)).
    { unfold Spec.align_up. rewrite (modulus_split k Hk) at 1.
      apply Z.mul_le_mono_nonneg_l; [lia |].
      apply Z.div_le_lower_bound; [lia |].
      rewrite <- (modulus_split k Hk). exact Hw. }
    unfold in_region. lia.
Qed.

Lemma bytes_used_wf s : wf s -> bytes_used s = active_marker_ s - start_marker_ s.
Proof.
  intros [(Hb & Hc & He) Hcur]. unfold bytes_used, Word.sub, cursor_ok in *.
  apply wrap_small. unfold in_range. lia.
Qed.

Lemma bytes_remaining_wf s :
  wf s -> bytes_remaining s = start_marker_ s + capacity_ s - active_marker_ s.
Proof.
  intros Hwf. unfold bytes_remaining. rewrite (bytes_used_wf s Hwf).
  destruct Hwf as [(Hb & Hc & He) Hcur]. unfold Word.sub, cursor_ok in *.
  rewrite wrap_small by (unfold in_range; lia). lia.
Qed.

(** C4. On a well-formed allocator [alloc] (a total function: it has no
    exception to raise) returns [nullptr] exactly when [size == 0], or
    [alignment] is not a power of two, or [alignment] exceeds the capacity,
    or the aligned block [[aligned, aligned + size)] does not lie within
    [[base, base + capacity)] -- whether [aligned] is read as the address
    [align_address] computes or as the cursor rounded up without
    wrap-around. A request larger than [bytes_remaining()] is such a case.
    A failed call leaves the allocator, hence [bytes_used()], unchanged. *)
Theorem alloc_nullptr_iff s size alignment :
  wf s -> in_range size -> in_range alignment ->
  (fst (alloc s size alignment) = nullptr <->
     size = 0 \/ is_power_of_two alignment = false \/
     alignment > capacity_ s \/
     ~ in_region s (align_address (active_marker_ s) alignment) size)
  /\ (fst (alloc s size alignment) = nullptr <->
     size = 0 \/ is_power_of_two alignment = false \/
     alignment > capacity_ s \/
     ~ in_region s (Spec.align_up (active_marker_ s) alignment) size)
  /\ (bytes_remaining s < size -> fst (alloc s size alignment) = nullptr)
  /\ (fst (alloc s size alignment) = nullptr ->
      snd (alloc s size alignment) = s /\
      bytes_used (snd (alloc s size alignment)) = bytes_used s).
Proof.
  intros Hwf Hsz Hal.
  destruct (alloc_cases s size alignment Hwf Hsz Hal)
    as [[E Hwhy] | (a & Ea & E & Hnn & Hpos & Hle & Hp & Hale & Hmod & Hreg)];
    rewrite E; simpl.
  - split; [tauto |]. split; [| split; [tauto | auto]].
    split; [intros _ | reflexivity].
    destruct Hwhy as [H | [H | [H | H]]]; auto.
    destruct (Z.eq_dec size 0) as [Hz | Hz]; [auto |].
    destruct (is_power_of_two alignment) eqn:Hp; [| auto].
    destruct (is_power_of_two_inv alignment Hal Hp) as (k & Hk & ->).
    right; right; right. intros Hup. apply H.
    apply in_region_align_up; auto. unfold in_range in Hsz; lia.
  - subst a.
    assert (Hno : ~ (size = 0 \/ is_power_of_two alignment = false \/
                     alignment > capacity_ s \/
                     ~ in_region s (align_address (active_marker_ s) alignment) size)).
    { intros [H | [H | [H | H]]]; try lia; try congruence; tauto. }
    assert (Hno' : ~ (size = 0 \/ is_power_of_two alignment = false \/
                      alignment > capacity_ s \/
                      ~ in_region s (Spec.align_up (active_marker_ s) alignment) size)).
    { intros [H | [H | [H | H]]]; try lia; try congruence.
      destruct (is_power_of_two_inv alignment Hal Hp) as (k & Hk & ->).
      apply H. apply in_region_align_up; auto. }
    split; [tauto |]. split; [tauto |]. split; [| tauto].
    intros Hrem. exfalso.
    rewrite (bytes_remaining_wf s Hwf) in Hrem.
    destruct (is_power_of_two_inv alignment Hal Hp) as (k & Hk & ->).
    pose proof (pow2_range k Hk) as Hr.
    apply (in_region_align_up s size k Hwf Hk Hpos) in Hreg.
    pose proof (align_up_ge (active_marker_ s) (2 ^ k) (proj1 Hr)).
    unfold in_region in Hreg. lia.
Qed.

(** C5. A checkpoint saved on a well-formed allocator can be restored
    after any sequence of allocations, and restoring gives back the very
    allocator that was saved: [bytes_used()] is what it was at [save]. With
    no allocation in between, save followed by restore changes nothing. *)
Theorem checkpoint_round_trip s reqs :
  wf s ->
  restore_checkpoint (alloc_all s reqs) (save_checkpoint s) = (Ok tt, s)
  /\ bytes_used (snd (restore_checkpoint (alloc_all s reqs) (save_checkpoint s)))
     = bytes_used s
  /\ restore_checkpoint s (save_checkpoint s) = (Ok tt, s).
Proof.
  intros [Hreg Hcur].
  assert (Hgen : forall s', same_region s s' ->
            restore_checkpoint s' (save_checkpoint s) = (Ok tt, s)).
  { intros s' (Hb & Hc & Ho).
    assert (Hreg' : region_ok s') by (unfold region_ok; rewrite Hb, Hc; exact Hreg).
    destruct (restore_cases s' (save_checkpoint s) Hreg') as [[_ Hout] | [E _]].
    - unfold save_checkpoint, cursor_ok in *. rewrite Hb, Hc in Hout. lia.
    - rewrite E. f_equal. unfold set_active, save_checkpoint.
      rewrite Hb, Hc, Ho. destruct s; reflexivity. }
  pose proof (Hgen _ (alloc_all_same_region reqs s)) as E.
  split; [exact E |]. split; [rewrite E; reflexivity |].
  apply Hgen. unfold same_region; auto.
Qed.

(** C6. On an allocator whose region lies in the address space,
    [restore_checkpoint] sets the cursor to the checkpoint and succeeds
    when the checkpoint lies within [[base, base + capacity]]; it throws
    [InvalidCheckpoint] exactly when the checkpoint lies outside, and then
    the allocator, hence [bytes_used()], is unchanged. *)
Theorem restore_checkpoint_spec s c :
  region_ok s ->
  (start_marker_ s <= c <= start_marker_ s + capacity_ s ->
     fst (restore_checkpoint s c) = Ok tt /\
     active_marker_ (snd (restore_checkpoint s c)) = c /\
     same_region s (snd (restore_checkpoint s c)))
  /\ (fst (restore_checkpoint s c) = Throw InvalidCheckpoint <->
      c < start_marker_ s \/ start_marker_ s + capacity_ s < c)
  /\ (fst (restore_checkpoint s c) = Throw InvalidCheckpoint ->
      snd (restore_checkpoint s c) = s /\
      bytes_used (snd (restore_checkpoint s c)) = bytes_used s).
Proof.
  intros Hreg.
  destruct (restore_cases s c Hreg) as [[E Hout] | [E Hin]]; rewrite E; simpl.
  - split; [lia |]. split; [tauto | auto].
  - split; [intros _; unfold same_region; auto |].
    split; [| discriminate].
    split; [discriminate | lia].
Qed.

End AllocOutcome.

Section BufferConstructor.
Import Word Alignment StackAllocator.

(** [start - addr], as the constructor computes it, is the distance from
    [addr] up to the next multiple of the alignment. *)
Lemma align_offset a k :
  0 <= k < width -> in_range a ->
  Word.sub (align_address a (2 ^ k)) a = Spec.alignment_offset (2 ^ k) a.
Proof.
  intros Hk Ha. pose proof (pow2_range k Hk) as Hr.
  unfold Spec.alignment_offset, in_range in *.
  destruct (Z.lt_ge_cases (a + 2 ^ k - 1) modulus) as [Hno | Hw].
  - pose proof (align_address_bounds a k Hk (proj1 Ha) Hno) as Hbnd.
    pose proof (align_address_pow2 a k Hk) as Hmul.
    unfold Word.sub. rewrite wrap_small by (unfold in_range; lia).
    apply Z.mod_unique with (q := - (wrap (a + 2 ^ k - 1) / 2 ^ k)); lia.
  - rewrite align_address_wrapped by (unfold in_range; solve [auto | lia]).
    unfold Word.sub, wrap.
    assert (Hm : (0 - a) mod modulus = modulus - a).
    { symmetry. apply Z.mod_unique with (q := -1); lia. }
    rewrite Hm.
    apply Z.mod_unique with (q := - 2 ^ (width - k)); [lia |].
    pose proof (modulus_split k Hk). lia.
Qed.

Lemma alignment_offset_range n a : 0 < n -> 0 <= Spec.alignment_offset n a < n.
Proof. intros Hn. apply Z.mod_pos_bound. exact Hn. Qed.

Lemma alignment_offset_aligned n a :
  0 < n -> (a + Spec.alignment_offset n a) mod n = 0.
Proof.
  intros Hn. unfold Spec.alignment_offset.
  rewrite Zplus_mod_idemp_r. replace (a + - a) with 0 by lia.
  apply Z.mod_0_l. lia.
Qed.

(** What the constructor does once the null and zero-size checks are
    passed, in terms of the alignment offset. *)
Lemma ctor_buffer_body k memory size :
  0 <= k < width - 1 -> in_range memory -> in_range size ->
  memory <> 0 -> size <> 0 ->
  ctor_buffer (2 ^ k) memory size =
    let offset := Spec.alignment_offset (2 ^ k) memory in
    if negb (offset =? 0) && (offset + 2 ^ k >=? size)
    then Throw BufferTooSmall
    else Ok (mk (align_address memory (2 ^ k)) (align_address memory (2 ^ k))
                (Word.sub size offset) false).
Proof.
  intros Hk Hm Hs Hm0 Hs0. unfold ctor_buffer, nullptr.
  destruct (Z.eqb_spec memory 0) as [| _]; [contradiction |].
  destruct (Z.eqb_spec size 0) as [| _]; [contradiction |].
  assert (Hk' : 0 <= k < width) by lia.
  rewrite (align_offset memory k Hk' Hm). cbv zeta.
  pose proof (alignment_offset_range (2 ^ k) memory (proj1 (pow2_range k Hk'))) as Hoff.
  assert (Hsum : Word.add (Spec.alignment_offset (2 ^ k) memory) (2 ^ k)
                 = Spec.alignment_offset (2 ^ k) memory + 2 ^ k).
  { unfold Word.add. apply wrap_small. unfold in_range.
    assert (2 ^ k * 2 <= modulus).
    { unfold modulus. replace (2 ^ k * 2) with (2 ^ (k + 1))
        by (rewrite Z.pow_add_r by lia; reflexivity).
      apply Z.pow_le_mono_r; lia. }
    lia. }
  rewrite Hsum. reflexivity.
Qed.

(** With room past the offset (or no offset at all) the constructor
    accepts the buffer and starts the region at the rounded-up pointer. *)
Lemma ctor_buffer_accept k memory size :
  0 <= k < width - 1 -> in_range memory -> in_range size ->
  memory + size <= modulus -> memory <> 0 -> size <> 0 ->
  Spec.alignment_offset (2 ^ k) memory = 0 \/
  Spec.alignment_offset (2 ^ k) memory + 2 ^ k < size ->
  ctor_buffer (2 ^ k) memory size
    = Ok (mk (memory + Spec.alignment_offset (2 ^ k) memory)
             (memory + Spec.alignment_offset (2 ^ k) memory)
             (size - Spec.alignment_offset (2 ^ k) memory) false).
Proof.
  intros Hk Hm Hs Hbuf Hm0 Hs0 Hroom.
  assert (Hk' : 0 <= k < width) by lia.
  pose proof (pow2_range k Hk') as Hr.
  pose proof (alignment_offset_range (2 ^ k) memory (proj1 Hr)) as Hoff.
  rewrite ctor_buffer_body by assumption. cbv zeta.
  unfold in_range in *.
  assert (Hcond : negb (Spec.alignment_offset (2 ^ k) memory =? 0)
                  && (Spec.alignment_offset (2 ^ k) memory + 2 ^ k >=? size)
                  = false).
  { destruct (Z.eqb_spec (Spec.alignment_offset (2 ^ k) memory) 0);
      [reflexivity | simpl].
    destruct (Z.geb_spec (Spec.alignment_offset (2 ^ k) memory + 2 ^ k) size);
      [lia | reflexivity]. }
  rewrite Hcond.
  assert (Hcap : Word.sub size (Spec.alignment_offset (2 ^ k) memory)
                 = size - Spec.alignment_offset (2 ^ k) memory).
  { unfold Word.sub. apply wrap_small. unfold in_range. lia. }
  rewrite Hcap.
  assert (Hbase : align_address memory (2 ^ k)
                  = memory + Spec.alignment_offset (2 ^ k) memory).
  { pose proof (align_offset memory k Hk' Hm) as Ho.
    destruct (Z.lt_ge_cases (memory + 2 ^ k - 1) modulus) as [Hno | Hw].
    - pose proof (align_address_bounds memory k Hk' (proj1 Hm) Hno) as Hb.
      unfold Word.sub in Ho. rewrite wrap_small in Ho
        by (unfold in_range; lia). lia.
    - exfalso.
      rewrite align_address_wrapped in Ho by (unfold in_range; solve [auto | lia]).
      unfold Word.sub, wrap in Ho.
      assert (Hw0 : (0 - memory) mod modulus = modulus - memory).
      { symmetry. apply Z.mod_unique with (q := -1); lia. }
      rewrite Hw0 in Ho. lia. }
  rewrite Hbase. reflexivity.
Qed.

(** Both constructors hand over a well-formed allocator when the block
    they are given lies in the address space. *)
Lemma ctor_owned_wf memory capacity s :
  in_range memory -> in_range capacity -> memory + capacity < modulus ->
  ctor_owned memory capacity = Ok s -> wf s.
Proof.
  intros Hm Hc Hend. unfold ctor_owned, nullptr.
  destruct (Z.eqb_spec capacity 0); [discriminate |].
  destruct (Z.eqb_spec memory 0); [discriminate |].
  intros [= <-]. unfold wf, region_ok, cursor_ok, in_range in *. simpl. lia.
Qed.

Lemma ctor_buffer_wf k memory size s :
  0 <= k < width - 1 -> in_range memory -> in_range size ->
  memory + size < modulus ->
  ctor_buffer (2 ^ k) memory size = Ok s -> wf s.
Proof.
  intros Hk Hm Hs Hbuf Hok.
  assert (Hk' : 0 <= k < width) by lia.
  pose proof (alignment_offset_range (2 ^ k) memory
                (proj1 (pow2_range k Hk'))) as Hoff.
  destruct (Z.eq_dec memory 0) as [-> | Hm0]; [discriminate Hok |].
  destruct (Z.eq_dec size 0) as [-> | Hs0].
  { unfold ctor_buffer, nullptr in Hok.
    destruct (Z.eqb_spec memory 0); discriminate. }
  assert (Hroom : Spec.alignment_offset (2 ^ k) memory = 0 \/
                  Spec.alignment_offset (2 ^ k) memory + 2 ^ k < size).
  { rewrite ctor_buffer_body in Hok by assumption. cbv zeta in Hok.
    destruct (Z.eqb_spec (Spec.alignment_offset (2 ^ k) memory) 0);
      [left; assumption | right].
    destruct (Z.geb_spec (Spec.alignment_offset (2 ^ k) memory + 2 ^ k) size);
      [discriminate | lia]. }
  rewrite ctor_buffer_accept in Hok by (assumption || lia).
  injection Hok as <-.
  unfold wf, region_ok, cursor_ok, in_range in *. simpl. lia.
Qed.

(** C7 as the specification states it fails: an already aligned buffer
    of one byte cannot hold a [max_align]-byte region, yet the constructor
    accepts it (with [alignof(std::max_align_t) = 16]). *)
Lemma ctor_buffer_accepts_small_aligned :
  ~ (is_ok (ctor_buffer 16 4096 1) = false <->
     Spec.buffer_ctor_must_fail 16 4096 1).
Proof.
  intros [_ H].
  assert (Hfail : Spec.buffer_ctor_must_fail 16 4096 1).
  { right; right. unfold Spec.too_small_after_adjustment, Spec.alignment_offset.
    vm_compute. reflexivity. }
  specialize (H Hfail). vm_compute in H. discriminate.
Qed.

(** C7, amended. For a buffer [[memory, memory + size)] of the address
    space and [alignof(std::max_align_t) = 2^k]: the constructor throws
    when the pointer is null, when [size == 0], and when the pointer is
    unaligned and fewer than [2^k] bytes remain past the alignment offset.
    It succeeds when the pointer is non-null, [size > 0] and either the
    pointer is already aligned (whatever the size) or more than [2^k]
    bytes remain past the offset; then [base] is the pointer rounded up to
    a multiple of [2^k], the cursor is [base], the memory is not owned, and
    [capacity == size - offset]. *)
Theorem ctor_buffer_spec k memory size :
  0 <= k < width - 1 -> in_range memory -> in_range size ->
  memory + size <= modulus ->
  (memory = 0 -> ctor_buffer (2 ^ k) memory size = Throw NullBuffer)
  /\ (memory <> 0 -> size = 0 ->
      ctor_buffer (2 ^ k) memory size = Throw ZeroBuffer)
  /\ (memory <> 0 -> size <> 0 ->
      Spec.alignment_offset (2 ^ k) memory <> 0 ->
      size - Spec.alignment_offset (2 ^ k) memory < 2 ^ k ->
      ctor_buffer (2 ^ k) memory size = Throw BufferTooSmall)
  /\ (memory <> 0 -> size <> 0 ->
      Spec.alignment_offset (2 ^ k) memory = 0 \/
      2 ^ k < size - Spec.alignment_offset (2 ^ k) memory ->
      exists base,
        ctor_buffer (2 ^ k) memory size
          = Ok (mk base base (size - Spec.alignment_offset (2 ^ k) memory) false)
        /\ base = memory + Spec.alignment_offset (2 ^ k) memory
        /\ base mod 2 ^ k = 0
        /\ memory <= base < memory + 2 ^ k
        /\ 0 < size - Spec.alignment_offset (2 ^ k) memory).
Proof.
  intros Hk Hm Hs Hbuf.
  assert (Hk' : 0 <= k < width) by lia.
  pose proof (pow2_range k Hk') as Hr.
  pose proof (alignment_offset_range (2 ^ k) memory (proj1 Hr)) as Hoff.
  split; [| split; [| split]].
  - intros ->. reflexivity.
  - intros Hm0 ->. unfold ctor_buffer, nullptr.
    destruct (Z.eqb_spec memory 0); [contradiction | reflexivity].
  - intros Hm0 Hs0 Hne Hsmall.
    rewrite ctor_buffer_body by assumption. cbv zeta.
    destruct (Z.eqb_spec (Spec.alignment_offset (2 ^ k) memory) 0);
      [contradiction |].
    destruct (Z.geb_spec (Spec.alignment_offset (2 ^ k) memory + 2 ^ k) size);
      [reflexivity | lia].
  - intros Hm0 Hs0 Hroom.
    exists (memory + Spec.alignment_offset (2 ^ k) memory).
    split; [apply ctor_buffer_accept; assumption || lia |].
    split; [reflexivity |].
    split; [apply alignment_offset_aligned; lia |].
    unfold in_range in *. lia.
Qed.

End BufferConstructor.

(** ** ObjectPool *)

Local Close Scope Z_scope.
Local Open Scope nat_scope.

Section PoolFacts.
Import ObjectPool.
Context {T : Type} {A : AcquireHook T} {R : ReleaseHook T}
        {D : DefaultConstructible T}.

Lemma pop_back_snoc (l : list T) (x : T) : pop_back (l ++ [x]) = Some (l, x).
Proof.
  induction l as [| y l IH]; simpl; [reflexivity |].
  rewrite IH. reflexivity.
Qed.

Lemma pop_back_inv (l front : list T) (x : T) :
  pop_back l = Some (front, x) -> l = front ++ [x].
Proof.
  revert front. induction l as [| y l IH]; intros front; simpl; [discriminate |].
  destruct (pop_back l) as [[f z] |] eqn:E.
  - intros [= <- <-]. simpl. f_equal. apply IH. reflexivity.
  - intros [= <- <-]. destruct l as [| w l]; [reflexivity |].
    simpl in E. destruct (pop_back l) as [[? ?] |]; discriminate.
Qed.

Lemma pop_back_none (l : list T) : pop_back l = None <-> l = [].
Proof.
  split; [| intros ->; reflexivity].
  destruct l as [| y l]; [reflexivity | simpl].
  destruct (pop_back l) as [[? ?] |]; discriminate.
Qed.

Lemma nonempty_snoc (l : list T) n :
  length l = S n -> exists front x, l = front ++ [x] /\ length front = n.
Proof.
  intros Hlen. destruct (pop_back l) as [[front x] |] eqn:E.
  - apply pop_back_inv in E. subst l. exists front, x. split; [reflexivity |].
    rewrite length_app in Hlen. simpl in Hlen. lia.
  - apply pop_back_none in E. subst l. discriminate.
Qed.

(** A batch that runs to its end adds exactly [n] objects. *)
Lemma emplace_released_length n : forall objs objs',
  emplace_released n objs = (objs', None) -> length objs' = length objs + n.
Proof.
  induction n as [| n IH]; intros objs objs'; simpl.
  - intros [= <-]. lia.
  - destruct (value_type_ctor (length objs)) as [v | e]; [| discriminate].
    intros E. apply IH in E. rewrite E, length_app. simpl. lia.
Qed.

(** A batch that stops early leaves the objects it started from in front. *)
Lemma emplace_released_prefix n : forall objs objs' oe,
  emplace_released n objs = (objs', oe) -> firstn (length objs) objs' = objs.
Proof.
  induction n as [| n IH]; intros objs objs' oe; simpl.
  - intros [= <- _]. apply firstn_all.
  - destruct (value_type_ctor (length objs)) as [v | e].
    + intros E. apply IH in E. rewrite length_app in E. simpl in E.
      assert (H : firstn (length objs) (firstn (length objs + 1) objs')
                  = firstn (length objs) (objs ++ [on_release v]))
        by (rewrite E; reflexivity).
      rewrite firstn_firstn, Nat.min_l in H by lia.
      rewrite H, firstn_app, Nat.sub_diag, firstn_all. simpl.
      apply app_nil_r.
    + intros [= <- _]. apply firstn_all.
Qed.

Lemma ctor_ok init_size limit (p : t T) :
  ctor init_size limit = Ok p ->
  size p = init_size /\
  size_limit_ p = match limit with Some 0 => None | _ => limit end /\
  within_limit p.
Proof.
  unfold ctor. destruct (over_limit limit init_size) eqn:Hov; [discriminate |].
  destruct (emplace_released init_size []) as [objs [e |]] eqn:E; [discriminate |].
  intros [= <-]. apply emplace_released_length in E. simpl in E.
  unfold size, within_limit. simpl. split; [exact E |]. split; [reflexivity |].
  destruct limit as [[| l] |]; simpl; auto.
  unfold size. simpl. unfold over_limit in Hov.
  apply Nat.ltb_ge in Hov. lia.
Qed.

Lemma add_room (p : t T) (x : T) :
  at_limit p = false ->
  add p x = (Ok tt, mk (objects_ p ++ [on_release x]) (size_limit_ p)) /\
  try_add p x = (true, mk (objects_ p ++ [on_release x]) (size_limit_ p)).
Proof. intros H. unfold add, try_add. rewrite H. auto. Qed.

Lemma add_full (p : t T) (x : T) :
  at_limit p = true ->
  add p x = (Throw LimitExceeded, p) /\ try_add p x = (false, p).
Proof. intros H. unfold add, try_add. rewrite H. auto. Qed.

Lemma at_limit_false_iff (p : t T) :
  at_limit p = false <->
  match size_limit_ p with Some l => size p < l | None => True end.
Proof.
  unfold at_limit, size. destruct (size_limit_ p) as [l |]; [| tauto].
  rewrite Nat.leb_gt. tauto.
Qed.

Lemma at_limit_true_iff (p : t T) :
  at_limit p = true <-> exists l, size_limit_ p = Some l /\ l <= size p.
Proof.
  unfold at_limit, size. destruct (size_limit_ p) as [l |].
  - rewrite Nat.leb_le. split; [intros H; exists l; auto |].
    intros (l' & [= <-] & H). exact H.
  - split; [discriminate | intros (l' & E & _); discriminate].
Qed.

Lemma size_snoc (objs : list T) (x : T) limit :
  size (mk (objs ++ [x]) limit) = S (size (mk objs limit)).
Proof. unfold size. simpl. rewrite length_app. simpl. lia. Qed.

(** C1. With a limit of zero and a non-zero initial size the constructor
    throws: the comparison [init_size > limit.value()] runs before the zero
    limit is turned into "unlimited". *)
Theorem ctor_zero_limit_throws (n : nat) :
  @ctor T R D (S n) (Some 0) = Throw InvalidArgument.
Proof. reflexivity. Qed.

(** The zero limit is read as "unlimited" only for an empty initial pool. *)
Lemma ctor_zero_zero : @ctor T R D 0 (Some 0) = Ok (mk [] None).
Proof. reflexivity. Qed.

(** C2, amended. A pool constructed with [initial_size = 3] and
    [limit = 5] holds 3 objects; the next two [add] calls succeed and bring
    the size to 5; every further attempt fails -- [add] throws
    [LimitExceeded], [try_add] returns false -- and leaves the size at 5. *)
Theorem pool_3_5_adds (p0 : t T) (a b c : T) :
  ctor 3 (Some 5) = Ok p0 ->
  size p0 = 3 /\
  exists p1 p2,
    add p0 a = (Ok tt, p1) /\ size p1 = 4 /\
    add p1 b = (Ok tt, p2) /\ size p2 = 5 /\
    add p2 c = (Throw LimitExceeded, p2) /\
    try_add p2 c = (false, p2).
Proof.
  intros Hc. destruct (ctor_ok _ _ _ Hc) as (Hsz & Hlim & _).
  destruct p0 as [objs lim]. simpl in Hlim. subst lim.
  unfold size in Hsz. simpl in Hsz. split; [exact Hsz |].
  assert (Hroom : forall (q : t T) (x : T) n,
            size_limit_ q = Some 5 -> size q = n -> n < 5 ->
            add q x = (Ok tt, mk (objects_ q ++ [on_release x]) (Some 5)) /\
            size (mk (objects_ q ++ [on_release x]) (Some 5)) = S n).
  { intros q x n Hl Hn Hlt. split.
    - rewrite <- Hl. apply add_room. apply at_limit_false_iff.
      rewrite Hl. lia.
    - rewrite size_snoc. unfold size in *. simpl. lia. }
  destruct (Hroom (mk objs (Some 5)) a 3 eq_refl Hsz ltac:(lia)) as [E1 S1].
  simpl in E1, S1.
  destruct (Hroom (mk (objs ++ [on_release a]) (Some 5)) b 4 eq_refl S1
              ltac:(lia)) as [E2 S2].
  simpl in E2, S2.
  exists (mk (objs ++ [on_release a]) (Some 5)).
  exists (mk ((objs ++ [on_release a]) ++ [on_release b]) (Some 5)).
  split; [exact E1 |]. split; [exact S1 |].
  split; [exact E2 |]. split; [exact S2 |].
  apply add_full. apply at_limit_true_iff. exists 5. split; [reflexivity |].
  rewrite S2. lia.
Qed.

End PoolFacts.

Section PoolOrder.
Import ObjectPool.
Context {T : Type} {A : AcquireHook T} {R : ReleaseHook T}
        {D : DefaultConstructible T}.

Lemma take_snoc (front : list T) (x : T) limit :
  take (mk (front ++ [x]) limit) = (Ok (on_acquire x), mk front limit).
Proof. unfold take. simpl. rewrite pop_back_snoc. reflexivity. Qed.

Lemma take_empty_iff (q : t T) :
  fst (take q) = Throw PoolExhausted <-> size q = 0.
Proof.
  unfold take, size. destruct (pop_back (objects_ q)) as [[front x] |] eqn:E.
  - apply pop_back_inv in E. rewrite E, length_app. simpl.
    split; [discriminate | lia].
  - apply pop_back_none in E. rewrite E. simpl. tauto.
Qed.

(** Adding to a pool with room and taking again hands the added object back
    (after the release and the acquire hook) and restores the pool. *)
Lemma add_then_take (q : t T) (b : T) :
  match size_limit_ q with Some l => size q < l | None => True end ->
  add q b = (Ok tt, mk (objects_ q ++ [on_release b]) (size_limit_ q)) /\
  take (snd (add q b)) = (Ok (on_acquire (on_release b)), q).
Proof.
  intros Hroom. apply at_limit_false_iff in Hroom.
  destruct (add_room q b Hroom) as [E _]. rewrite E. simpl.
  split; [reflexivity |]. rewrite take_snoc. destruct q; reflexivity.
Qed.

(** C8, amended. On a pool of size [n >= 1], [take()] removes the object at
    the back of the queue -- the most recently added one -- passes it
    through the acquire hook, returns it and leaves size [n - 1];
    [PoolExhausted] is thrown exactly on an empty pool. An [add()] after that
    take brings the size back to [n] when the pool has room for it (no limit,
    or [n - 1] below the limit, which holds whenever the pool was within its
    limit); the object added last to a pool with room is the one the next
    [take()] returns. When the limit is at or below [n - 1] the [add()]
    throws [LimitExceeded] and the size stays [n - 1]. *)
Theorem take_lifo (p : t T) (n : nat) :
  size p = S n ->
  (exists front x,
      objects_ p = front ++ [x] /\
      take p = (Ok (on_acquire x), mk front (size_limit_ p)) /\
      size (snd (take p)) = n)
  /\ (forall q : t T, fst (take q) = Throw PoolExhausted <-> size q = 0)
  /\ (forall y,
        match size_limit_ p with Some l => n < l | None => True end ->
        fst (add (snd (take p)) y) = Ok tt /\
        size (snd (add (snd (take p)) y)) = S n)
  /\ (within_limit p ->
        match size_limit_ p with Some l => n < l | None => True end)
  /\ (forall y l,
        size_limit_ p = Some l -> l <= n ->
        add (snd (take p)) y = (Throw LimitExceeded, snd (take p)) /\
        size (snd (add (snd (take p)) y)) = n)
  /\ (forall (q : t T) b,
        match size_limit_ q with Some l => size q < l | None => True end ->
        fst (add q b) = Ok tt /\
        take (snd (add q b)) = (Ok (on_acquire (on_release b)), q)).
Proof.
  intros Hsz. unfold size in Hsz.
  destruct (nonempty_snoc _ _ Hsz) as (front & x & Hobjs & Hfront).
  assert (Htake : take p = (Ok (on_acquire x), mk front (size_limit_ p))).
  { destruct p as [objs lim]. simpl in *. subst objs. apply take_snoc. }
  split; [| split; [| split; [| split; [| split]]]].
  - exists front, x. rewrite Htake. unfold size. simpl. auto.
  - apply take_empty_iff.
  - intros y Hroom. rewrite Htake. simpl.
    destruct (add_then_take (mk front (size_limit_ p)) y) as [E _].
    { simpl. unfold size. simpl. rewrite Hfront. exact Hroom. }
    rewrite E. simpl. split; [reflexivity |].
    unfold size. simpl. rewrite length_app, Hfront. simpl. lia.
  - unfold within_limit, size. destruct (size_limit_ p); [lia | trivial].
  - intros y l Hl Hle. rewrite Htake. simpl.
    destruct (add_full (mk front (size_limit_ p)) y) as [E _].
    { apply at_limit_true_iff. exists l. unfold size. simpl. split; [exact Hl | lia]. }
    rewrite E. simpl. split; [reflexivity | exact Hfront].
  - intros q b Hroom. destruct (add_then_take q b Hroom) as [E1 E2].
    split; [rewrite E1; reflexivity | exact E2].
Qed.


End PoolOrder.

(** ** PoolLease *)

Section LeaseFacts.
Import ObjectPool.
Context {T : Type} {A : AcquireHook T} {R : ReleaseHook T}.

(** A released or moved-from lease returns nothing. *)
Lemma dtor_inactive (l : PoolLease.t T) (p : t T) :
  PoolLease.active_ l = false -> PoolLease.dtor l p = (Ok tt, p).
Proof. intros H. unfold PoolLease.dtor. rewrite H. reflexivity. Qed.

(** An active lease returns its object when the pool has room. *)
Lemma dtor_returns (l : PoolLease.t T) (p : t T) :
  PoolLease.active_ l = true -> at_limit p = false ->
  PoolLease.dtor l p
  = (Ok tt, mk (objects_ p ++ [on_release (PoolLease.obj_ l)]) (size_limit_ p)).
Proof.
  intros Ha Hroom. unfold PoolLease.dtor. rewrite Ha.
  apply add_room. exact Hroom.
Qed.


End LeaseFacts.

(** ** The properties on concrete runs *)

Section Runs.
Import Word Alignment StackAllocator Demo.
Local Open Scope Z_scope.

Ltac by_computation :=
  unfold wf, region_ok, cursor_ok, in_range, op_in_range; cbn;
  rewrite ?modulus_eq; repeat split; lia.

Example align_address_13_8 : align_address 13 8 = 16.
Proof. reflexivity. Qed.

Example align_address_near_top :
  align_address (modulus - 3) 16 = 0.
Proof. vm_compute. reflexivity. Qed.

Example is_power_of_two_samples :
  map is_power_of_two [0; 1; 2; 3; 4; 6; 16; 24]
  = [false; true; true; false; true; false; true; false].
Proof. vm_compute. reflexivity. Qed.

Example run_arena0 :
  map (fun es => (fst es, active_marker_ (snd es))) (run arena0 calls0)
  = [(Allocated 4096 8 8, 4104); (Allocated 4104 3 1, 4107);
     (Allocated 4112 16 16, 4128); (Restored 4100, 4100);
     (NoSpace 100 4, 4100); (RestoreThrew 9000, 4100);
     (NoSpace 8 3, 4100); (WasReset, 4096)].
Proof. vm_compute. reflexivity. Qed.

Lemma run_safe_witness :
  wf arena0 /\ Forall op_in_range calls0 /\
  Forall (fun es => event_ok arena0 (fst es) /\ cursor_ok (snd es) /\
                    same_region arena0 (snd es))
         (run arena0 calls0).
Proof.
  assert (H1 : wf arena0) by by_computation.
  assert (H2 : Forall op_in_range calls0)
    by (unfold calls0; repeat constructor; by_computation).
  split; [exact H1 |]. split; [exact H2 |].
  exact (run_safe calls0 arena0 H1 H2).
Defined.

Lemma alloc_nullptr_iff_witness :
  wf arena0 /\ in_range 100 /\ in_range 8 /\
  fst (alloc arena0 100 8) = nullptr /\
  snd (alloc arena0 100 8) = arena0.
Proof.
  assert (H1 : wf arena0) by by_computation.
  assert (H2 : in_range 100) by by_computation.
  assert (H3 : in_range 8) by by_computation.
  destruct (alloc_nullptr_iff arena0 100 8 H1 H2 H3) as (_ & _ & Hbig & Hsame).
  assert (Hnull : fst (alloc arena0 100 8) = nullptr).
  { apply Hbig. vm_compute. reflexivity. }
  split; [exact H1 |]. split; [exact H2 |]. split; [exact H3 |].
  split; [exact Hnull | exact (proj1 (Hsame Hnull))].
Defined.

Lemma checkpoint_round_trip_witness :
  wf arena0 /\
  restore_checkpoint (alloc_all arena0 [(8, 8); (3, 1); (16, 16)])
                     (save_checkpoint arena0)
  = (Ok tt, arena0).
Proof.
  assert (H1 : wf arena0) by by_computation.
  split; [exact H1 |].
  exact (proj1 (checkpoint_round_trip arena0 [(8, 8); (3, 1); (16, 16)] H1)).
Defined.

Example alloc_all_arena0 :
  bytes_used (alloc_all arena0 [(8, 8); (3, 1); (16, 16)]) = 32.
Proof. vm_compute. reflexivity. Qed.

Lemma restore_checkpoint_spec_witness :
  region_ok arena0 /\
  (fst (restore_checkpoint arena0 9000) = Throw InvalidCheckpoint <->
   9000 < 4096 \/ 4096 + 64 < 9000).
Proof.
  assert (H1 : region_ok arena0) by by_computation.
  split; [exact H1 |].
  exact (proj1 (proj2 (restore_checkpoint_spec arena0 9000 H1))).
Defined.

Example ctor_buffer_unaligned :
  ctor_buffer 16 4099 64 = Ok (mk 4112 4112 51 false).
Proof. vm_compute. reflexivity. Qed.

Example ctor_buffer_boundary :
  ctor_buffer 16 4099 29 = Throw BufferTooSmall.
Proof. vm_compute. reflexivity. Qed.

Lemma ctor_buffer_spec_witness :
  (0 <= 4 < width - 1) /\ in_range 4099 /\ in_range 64 /\
  4099 + 64 <= modulus /\
  exists base,
    ctor_buffer (2 ^ 4) 4099 64
    = Ok (mk base base (64 - Spec.alignment_offset (2 ^ 4) 4099) false)
    /\ base = 4099 + Spec.alignment_offset (2 ^ 4) 4099
    /\ base mod 2 ^ 4 = 0
    /\ 4099 <= base < 4099 + 2 ^ 4
    /\ 0 < 64 - Spec.alignment_offset (2 ^ 4) 4099.
Proof.
  assert (H1 : 0 <= 4 < width - 1) by (unfold width; lia).
  assert (H2 : in_range 4099) by by_computation.
  assert (H3 : in_range 64) by by_computation.
  assert (H4 : 4099 + 64 <= modulus) by (rewrite modulus_eq; lia).
  repeat (split; [assumption |]).
  apply (ctor_buffer_spec 4 4099 64 H1 H2 H3 H4).
  - lia.
  - lia.
  - right. vm_compute. reflexivity.
Defined.

End Runs.

Section PoolRuns.
Import ObjectPool Demo.

Example ctor_3_5 :
  ctor 3 (Some 5)
  = Ok (mk [mkObject 0 EmptyString; mkObject 0 EmptyString;
            mkObject 0 EmptyString] (Some 5)).
Proof. reflexivity. Qed.

Example ctor_1_0 : @ctor Object _ _ 1 (Some 0) = Throw InvalidArgument.
Proof. reflexivity. Qed.

(** C2 as the specification states it fails: after the constructor put 3
    objects under a limit of 5, there is no run in which the next three
    [add] calls all succeed. *)
Lemma pool_3_5_third_add_throws :
  ~ (exists p0 p1 p2 p3 : t Object,
        ctor 3 (Some 5) = Ok p0 /\
        add p0 item_A = (Ok tt, p1) /\
        add p1 item_B = (Ok tt, p2) /\
        add p2 item_A = (Ok tt, p3)).
Proof.
  intros (p0 & p1 & p2 & p3 & H0 & H1 & H2 & H3).
  injection H0 as <-. injection H1 as <-. injection H2 as <-.
  discriminate H3.
Qed.

Lemma pool_3_5_adds_witness :
  exists p0 : t Object,
    ctor 3 (Some 5) = Ok p0 /\
    exists p1 p2,
      add p0 item_A = (Ok tt, p1) /\ size p1 = 4 /\
      add p1 item_B = (Ok tt, p2) /\ size p2 = 5 /\
      add p2 item_A = (Throw LimitExceeded, p2) /\
      try_add p2 item_A = (false, p2).
Proof.
  eexists. split; [reflexivity |].
  exact (proj2 (pool_3_5_adds _ item_A item_B item_A eq_refl)).
Defined.

(** C8 as the specification states it fails: a pool of size 1 whose limit
    was lowered to 0 by [set_size_limit] gives up its object, and the
    [add()] after that take throws, leaving size 0 instead of 1. *)
Lemma add_after_take_can_fail :
  size (set_size_limit (snd (add ctor_default item_A)) (Some 0)) = 1
  /\ take (set_size_limit (snd (add ctor_default item_A)) (Some 0))
     = (Ok item_A, mk [] (Some 0))
  /\ add (mk [] (Some 0)) item_A = (Throw LimitExceeded, mk [] (Some 0))
  /\ size (snd (add (mk [] (Some 0)) item_A)) <> 1.
Proof. repeat split. discriminate. Qed.

Lemma take_lifo_witness :
  size (snd (add (ctor_queue [item_A]) item_B)) = 2 /\
  take (snd (add (ctor_queue [item_A]) item_B))
  = (Ok item_B, ctor_queue [item_A]).
Proof.
  assert (H : size (snd (add (ctor_queue [item_A]) item_B)) = 2) by reflexivity.
  split; [exact H |].
  destruct (take_lifo _ 1 H) as (_ & _ & _ & _ & _ & Hlast).
  exact (proj2 (Hlast (ctor_queue [item_A]) item_B I)).
Defined.

(** A lease taken from a full one-object pool, the pool refilled by another
    [add] while the lease is out: the state of C10, reached through the
    public operations. *)
Example lease_scenario :
  exists p0 l p1 p2,
    ctor 1 (Some 1) = Ok p0 /\
    PoolLease.ctor p0 = (Ok l, p1) /\
    add p1 item_B = (Ok tt, p2) /\
    l = PoolLease.mk (mkObject 0 EmptyString) true /\
    p2 = mk [item_B] (Some 1).
Proof. repeat eexists. Qed.


End PoolRuns.

(* ================================================================= *)
(** * Further properties of the code *)

Local Close Scope nat_scope.
Local Open Scope Z_scope.

(** ** Alignment.hpp *)

Section AlignmentMore.
Import Word Alignment.

(** X1. [is_power_of_two] accepts a [size_t] value exactly when it is
    [2^k] for one of the 64 bit positions [k]; zero is refused. *)
Theorem is_power_of_two_iff v :
  in_range v ->
  (is_power_of_two v = true <-> exists k, 0 <= k < width /\ v = 2 ^ k).
Proof.
  intros Hv. split.
  - apply is_power_of_two_inv. exact Hv.
  - intros (k & Hk & ->). apply is_power_of_two_pow2. exact Hk.
Qed.

Lemma mask_low k : 0 <= k < width -> Word.sub (2 ^ k) 1 = Z.ones k.
Proof.
  intros Hk. pose proof (pow2_range k Hk) as Hr.
  unfold Word.sub. rewrite wrap_small by (unfold in_range; lia).
  rewrite Z.ones_equiv. lia.
Qed.

Lemma is_aligned_mod addr k :
  0 <= k < width -> is_aligned addr (2 ^ k) = (addr mod 2 ^ k =? 0).
Proof.
  intros Hk. unfold is_aligned. rewrite (mask_low k Hk).
  rewrite Z.land_ones by lia. reflexivity.
Qed.

Lemma multiple_gap n r m :
  0 < n -> r mod n = 0 -> m mod n = 0 -> m < r -> m + n <= r.
Proof.
  intros Hn Hr Hm Hlt.
  apply Z.mod_divide in Hr; [| lia]. apply Z.mod_divide in Hm; [| lia].
  destruct Hr as [qr ->]. destruct Hm as [qm ->].
  assert (qm < qr) by nia. nia.
Qed.

(** X2. When [addr + alignment - 1] does not wrap around, [align_address]
    returns the least multiple of the alignment at or above [addr]: it is a
    multiple, it lies in [[addr, addr + alignment)], and no multiple at or
    above [addr] is smaller. *)
Theorem align_address_least a k :
  0 <= k < width -> 0 <= a -> a + 2 ^ k - 1 < modulus ->
  align_address a (2 ^ k) mod 2 ^ k = 0
  /\ a <= align_address a (2 ^ k) < a + 2 ^ k
  /\ (forall m, a <= m -> m mod 2 ^ k = 0 -> align_address a (2 ^ k) <= m)
  /\ align_address a (2 ^ k) = Spec.align_up a (2 ^ k).
Proof.
  intros Hk Ha Hno. pose proof (pow2_range k Hk) as Hr.
  pose proof (align_address_mod a k Hk) as Hmod.
  pose proof (align_address_bounds a k Hk Ha Hno) as Hb.
  split; [exact Hmod |]. split; [exact Hb |]. split.
  - intros m Ham Hm.
    destruct (Z.le_gt_cases (align_address a (2 ^ k)) m) as [H | H]; [exact H |].
    pose proof (multiple_gap (2 ^ k) _ m (proj1 Hr) Hmod Hm H). lia.
  - rewrite align_address_pow2 by exact Hk.
    rewrite wrap_small by (unfold in_range; lia). reflexivity.
Qed.

Lemma align_address_range a k :
  0 <= k < width -> in_range (align_address a (2 ^ k)).
Proof.
  intros Hk. pose proof (pow2_range k Hk) as Hr.
  rewrite align_address_pow2 by exact Hk.
  pose proof (wrap_range (a + 2 ^ k - 1)) as Hx. unfold in_range in *.
  pose proof (Z.mul_div_le (wrap (a + 2 ^ k - 1)) (2 ^ k) (proj1 Hr)).
  assert (0 <= wrap (a + 2 ^ k - 1) / 2 ^ k) by (apply Z.div_pos; lia).
  nia.
Qed.

(** X3. For a power-of-two alignment, [is_aligned] holds exactly of the
    multiples of the alignment; the address [align_address] returns is
    aligned (also when the computation wrapped around); an aligned address
    is returned as it is; and aligning twice is aligning once. *)
Theorem align_address_fixpoint a k :
  0 <= k < width -> in_range a ->
  (is_aligned a (2 ^ k) = true <-> a mod 2 ^ k = 0)
  /\ is_aligned (align_address a (2 ^ k)) (2 ^ k) = true
  /\ (is_aligned a (2 ^ k) = true -> align_address a (2 ^ k) = a)
  /\ align_address (align_address a (2 ^ k)) (2 ^ k) = align_address a (2 ^ k).
Proof.
  intros Hk Ha. pose proof (pow2_range k Hk) as Hr.
  assert (Hfix : forall b, in_range b -> b mod 2 ^ k = 0 ->
            align_address b (2 ^ k) = b).
  { intros b Hb Hmod. unfold in_range in Hb.
    assert (Hroom : b + 2 ^ k - 1 < modulus).
    { destruct (Z.lt_ge_cases (b + 2 ^ k - 1) modulus) as [H | H]; [exact H |].
      assert (Hm : modulus mod 2 ^ k = 0).
      { rewrite (modulus_split k Hk), Z.mul_comm. apply Z.mod_mul. lia. }
      pose proof (multiple_gap (2 ^ k) modulus b (proj1 Hr) Hm Hmod (proj2 Hb)).
      lia. }
    pose proof (align_address_bounds b k Hk (proj1 Hb) Hroom) as Hbnd.
    pose proof (align_address_mod b k Hk) as Hres.
    destruct (Z.eq_dec (align_address b (2 ^ k)) b) as [E | NE]; [exact E |].
    assert (Hlt : b < align_address b (2 ^ k)) by lia.
    pose proof (multiple_gap (2 ^ k) _ b (proj1 Hr) Hres Hmod Hlt). lia. }
  split; [| split; [| split]].
  - rewrite is_aligned_mod by exact Hk. apply Z.eqb_eq.
  - rewrite is_aligned_mod by exact Hk. apply Z.eqb_eq.
    apply align_address_mod; exact Hk.
  - intros Hal. apply Hfix; [exact Ha |].
    rewrite is_aligned_mod in Hal by exact Hk. apply Z.eqb_eq. exact Hal.
  - apply Hfix; [apply align_address_range; exact Hk |].
    apply align_address_mod; exact Hk.
Qed.

End AlignmentMore.

(** ** StackAllocator: construction, accounting, layout of the blocks *)

Section ArenaMore.
Import Word Alignment StackAllocator ArenaTrace.

Lemma exec_cons s o ops : exec s (o :: ops) = exec (snd (step s o)) ops.
Proof. reflexivity. Qed.

Lemma events_cons s o ops :
  events s (o :: ops) = fst (step s o) :: events (snd (step s o)) ops.
Proof. unfold events. simpl. destruct (step s o). reflexivity. Qed.

Lemma step_same_region s o : same_region s (snd (step s o)).
Proof.
  destruct o as [size alignment | | c]; simpl.
  - pose proof (alloc_same_region s size alignment) as H.
    destruct (alloc s size alignment). exact H.
  - unfold same_region. auto.
  - unfold restore_checkpoint.
    destruct (_ || _); simpl; unfold same_region; auto.
Qed.

Lemma exec_same_region ops : forall s, same_region s (exec s ops).
Proof.
  induction ops as [| o ops IH]; intros s.
  - unfold same_region. auto.
  - rewrite exec_cons. specialize (IH (snd (step s o))).
    pose proof (step_same_region s o) as H.
    unfold same_region in *. intuition congruence.
Qed.

Lemma exec_wf ops : forall s,
  wf s -> Forall op_in_range ops -> wf (exec s ops).
Proof.
  induction ops as [| o ops IH]; intros s Hwf Hall; [exact Hwf |].
  inversion Hall as [| ? ? Ho Hrest]; subst.
  rewrite exec_cons. apply IH; [| exact Hrest].
  apply (step_safe s o Hwf Ho).
Qed.

(** A successful [alloc] on a well-formed allocator, in full. *)
Lemma alloc_success s size alignment :
  wf s -> in_range size -> in_range alignment ->
  fst (alloc s size alignment) <> nullptr ->
  exists a,
    alloc s size alignment = (a, set_active s (a + size)) /\
    a = Spec.align_up (active_marker_ s) alignment /\
    active_marker_ s <= a < active_marker_ s + alignment /\
    a mod alignment = 0 /\ 0 < size /\ in_region s a size.
Proof.
  intros Hwf Hsz Hal Hnn.
  destruct (alloc_cases s size alignment Hwf Hsz Hal)
    as [[E _] | (a & Ea & E & _ & Hpos & _ & Hp & _ & Hmod & Hreg)].
  - rewrite E in Hnn. contradiction.
  - exists a. split; [exact E |].
    destruct (is_power_of_two_inv alignment Hal Hp) as (k & Hk & ->).
    destruct Hwf as [(Hb & Hc & He) Hcur]. unfold cursor_ok in Hcur.
    assert (Hno : active_marker_ s + 2 ^ k - 1 < modulus).
    { destruct (Z.lt_ge_cases (active_marker_ s + 2 ^ k - 1) modulus)
        as [H | H]; [exact H | exfalso].
      rewrite align_address_wrapped in Ea
        by (unfold in_range; solve [auto | lia]).
      unfold in_region in Hreg. lia. }
    assert (Hcur0 : 0 <= active_marker_ s) by lia.
    pose proof (align_address_bounds _ k Hk Hcur0 Hno) as Hb2.
    rewrite <- Ea in Hb2.
    split; [| auto].
    rewrite Ea, align_address_pow2 by exact Hk.
    rewrite wrap_small by (unfold in_range; lia). reflexivity.
Qed.

(** X4. The owning constructor throws exactly when the capacity is zero or
    [malloc] returned null. The allocator it builds otherwise is
    well-formed, owns its block of [capacity] bytes and is empty:
    [bytes_used() == 0] and [bytes_remaining() == capacity()]. *)
Theorem ctor_owned_fresh memory cap :
  in_range memory -> in_range cap -> memory + cap < modulus ->
  (is_ok (ctor_owned memory cap) = false <-> cap = 0 \/ memory = 0)
  /\ (forall s, ctor_owned memory cap = Ok s ->
        wf s /\ start_marker_ s = memory /\ capacity s = cap /\
        owns_memory_ s = true /\
        bytes_used s = 0 /\ bytes_remaining s = cap).
Proof.
  intros Hm Hc Hend. unfold ctor_owned, nullptr. split.
  - destruct (Z.eqb_spec cap 0); [simpl; tauto |].
    destruct (Z.eqb_spec memory 0); simpl; [tauto |].
    split; [discriminate | tauto].
  - intros s Hok.
    pose proof (ctor_owned_wf memory cap s Hm Hc Hend Hok) as Hwf.
    destruct (Z.eqb_spec cap 0); [discriminate |].
    destruct (Z.eqb_spec memory 0); [discriminate |].
    injection Hok as <-.
    split; [exact Hwf |].
    rewrite (bytes_remaining_wf _ Hwf), (bytes_used_wf _ Hwf).
    unfold capacity. simpl. repeat split; lia.
Qed.

(** X5. Whatever the caller's buffer, the region the buffer constructor
    adopts lies inside it: [base] is the first multiple of the alignment at
    or after the pointer, the region ends exactly where the buffer ends, it
    is not empty, not owned, and starts out unused. *)
Theorem ctor_buffer_region k memory size s :
  0 <= k < width - 1 -> in_range memory -> in_range size ->
  memory + size < modulus ->
  ctor_buffer (2 ^ k) memory size = Ok s ->
  memory <= start_marker_ s < memory + 2 ^ k
  /\ start_marker_ s mod 2 ^ k = 0
  /\ start_marker_ s + capacity_ s = memory + size
  /\ 0 < capacity_ s
  /\ active_marker_ s = start_marker_ s
  /\ owns_memory_ s = false
  /\ bytes_used s = 0 /\ bytes_remaining s = capacity_ s.
Proof.
  intros Hk Hm Hs Hbuf Hok.
  pose proof (ctor_buffer_wf k memory size s Hk Hm Hs Hbuf Hok) as Hwf.
  assert (Hk' : 0 <= k < width) by lia.
  pose proof (pow2_range k Hk') as Hr.
  pose proof (alignment_offset_range (2 ^ k) memory (proj1 Hr)) as Hoff.
  pose proof (alignment_offset_aligned (2 ^ k) memory (proj1 Hr)) as Hal.
  rewrite (bytes_remaining_wf _ Hwf), (bytes_used_wf _ Hwf).
  destruct (Z.eq_dec memory 0) as [-> | Hm0]; [discriminate Hok |].
  destruct (Z.eq_dec size 0) as [-> | Hs0].
  { unfold ctor_buffer, nullptr in Hok.
    destruct (Z.eqb_spec memory 0); discriminate. }
  assert (Hroom : Spec.alignment_offset (2 ^ k) memory = 0 \/
                  Spec.alignment_offset (2 ^ k) memory + 2 ^ k < size).
  { rewrite ctor_buffer_body in Hok by assumption. cbv zeta in Hok.
    destruct (Z.eqb_spec (Spec.alignment_offset (2 ^ k) memory) 0);
      [left; assumption | right].
    destruct (Z.geb_spec (Spec.alignment_offset (2 ^ k) memory + 2 ^ k) size);
      [discriminate | lia]. }
  rewrite ctor_buffer_accept in Hok by (assumption || lia).
  injection Hok as <-. simpl. unfold in_range in *.
  repeat split; lia || exact Hal.
Qed.

(** X6. After any sequence of calls on a well-formed allocator the
    capacity is what it was, [bytes_used()] lies between 0 and the capacity,
    and [bytes_used() + bytes_remaining() == capacity()]. *)
Theorem exec_accounting s ops :
  wf s -> Forall op_in_range ops ->
  capacity (exec s ops) = capacity s
  /\ 0 <= bytes_used (exec s ops) <= capacity s
  /\ bytes_used (exec s ops) + bytes_remaining (exec s ops) = capacity s.
Proof.
  intros Hwf Hall.
  pose proof (exec_wf ops s Hwf Hall) as Hwf'.
  destruct (exec_same_region ops s) as (Hb & Hc & _).
  rewrite (bytes_remaining_wf _ Hwf'), (bytes_used_wf _ Hwf').
  destruct Hwf' as [_ Hcur]. unfold cursor_ok, capacity in *.
  rewrite Hc in *. repeat split; lia.
Qed.

(** X7. A successful [alloc] wastes no more than the padding: the address
    it returns is the least multiple of the alignment at or above the
    cursor, less than [alignment] bytes past it; the cursor moves to the end
    of the block, and [bytes_used()] grows by the padding plus [size]. *)
Theorem alloc_success_shape s size alignment :
  wf s -> in_range size -> in_range alignment ->
  fst (alloc s size alignment) <> nullptr ->
  fst (alloc s size alignment) = Spec.align_up (active_marker_ s) alignment
  /\ active_marker_ s <= fst (alloc s size alignment)
                      < active_marker_ s + alignment
  /\ active_marker_ (snd (alloc s size alignment))
     = fst (alloc s size alignment) + size
  /\ bytes_used (snd (alloc s size alignment))
     = bytes_used s + (fst (alloc s size alignment) - active_marker_ s) + size.
Proof.
  intros Hwf Hsz Hal Hnn.
  pose proof (alloc_wf s size alignment Hwf Hsz Hal) as Hwf'.
  destruct (alloc_success s size alignment Hwf Hsz Hal Hnn)
    as (a & E & Ha & Hb & _ & _ & _).
  rewrite (bytes_used_wf _ Hwf'), (bytes_used_wf _ Hwf).
  rewrite E in *. simpl.
  split; [exact Ha |]. split; [exact Hb |]. split; [reflexivity | lia].
Qed.

End ArenaMore.

Section ArenaLayout.
Import Word Alignment StackAllocator ArenaTrace.

Lemma alloc_ops_in_range_cons r reqs :
  Forall op_in_range (alloc_ops (r :: reqs)) ->
  in_range (fst r) /\ in_range (snd r) /\ Forall op_in_range (alloc_ops reqs).
Proof.
  intros H. inversion H as [| ? ? H1 H3]; subst.
  simpl in H1. destruct H1. auto.
Qed.

(** The blocks of a run of [alloc] calls follow one another from the
    cursor, and the cursor ends where the last block ends. *)
Lemma alloc_run_chain reqs : forall s,
  wf s -> Forall op_in_range (alloc_ops reqs) ->
  laid_out (active_marker_ s) (blocks (events s (alloc_ops reqs))) = true /\
  chain_end (active_marker_ s) (blocks (events s (alloc_ops reqs)))
  = active_marker_ (exec s (alloc_ops reqs)).
Proof.
  induction reqs as [| [size alignment] reqs IH]; intros s Hwf Hall.
  - simpl. auto.
  - destruct (alloc_ops_in_range_cons _ _ Hall) as (Hsz & Hal & Hrest).
    simpl in Hsz, Hal.
    change (alloc_ops ((size, alignment) :: reqs))
      with (Alloc size alignment :: alloc_ops reqs).
    rewrite events_cons, exec_cons. simpl.
    pose proof (alloc_wf s size alignment Hwf Hsz Hal) as Hwf'.
    destruct (Z.eq_dec (fst (alloc s size alignment)) nullptr) as [Hn | Hnn].
    + destruct (alloc_cases s size alignment Hwf Hsz Hal)
        as [[E _] | (a & _ & E & Hne & _)];
        [| rewrite E in Hn; simpl in Hn; contradiction].
      rewrite E. simpl. apply (IH s Hwf Hrest).
    + destruct (alloc_success s size alignment Hwf Hsz Hal Hnn)
        as (a & E & _ & Hb & _ & Hpos & _).
      rewrite E in *. simpl in *.
      destruct (Z.eqb_spec a nullptr) as [| _]; [contradiction |]. simpl.
      destruct (IH _ Hwf' Hrest) as [IH1 IH2]. simpl in IH1, IH2.
      rewrite IH1, IH2.
      destruct (Z.leb_spec (active_marker_ s) a); [| lia].
      destruct (Z.ltb_spec 0 size); [| lia]. auto.
Qed.

Lemma laid_out_weaken bs : forall lo lo',
  lo' <= lo -> laid_out lo bs = true -> laid_out lo' bs = true.
Proof.
  destruct bs as [| [a size] rest]; intros lo lo' Hle; simpl; [auto |].
  rewrite !andb_true_iff, !Z.leb_le. intuition lia.
Qed.

Lemma laid_out_from bs : forall lo j a n,
  laid_out lo bs = true -> nth_error bs j = Some (a, n) -> lo <= a.
Proof.
  induction bs as [| [a0 n0] rest IH]; intros lo j a n Hl Hj.
  - destruct j; discriminate.
  - simpl in Hl. rewrite !andb_true_iff, Z.leb_le, Z.ltb_lt in Hl.
    destruct Hl as [[H1 H2] H3].
    destruct j as [| j]; simpl in Hj.
    + injection Hj as <- <-. exact H1.
    + pose proof (IH _ _ _ _ H3 Hj). lia.
Qed.

Lemma laid_out_ordered bs : forall lo i j a1 n1 a2 n2,
  laid_out lo bs = true -> (i < j)%nat ->
  nth_error bs i = Some (a1, n1) -> nth_error bs j = Some (a2, n2) ->
  a1 + n1 <= a2.
Proof.
  induction bs as [| [a0 n0] rest IH]; intros lo i j a1 n1 a2 n2 Hl Hij Hi Hj.
  - destruct i; discriminate.
  - simpl in Hl. rewrite !andb_true_iff in Hl. destruct Hl as [_ H3].
    destruct j as [| j]; [lia |]. simpl in Hj.
    destruct i as [| i]; simpl in Hi.
    + injection Hi as <- <-. exact (laid_out_from rest _ j a2 n2 H3 Hj).
    + apply (IH (a0 + n0) i j a1 n1 a2 n2 H3); [lia | exact Hi | exact Hj].
Qed.

Lemma laid_out_sum bs : forall lo,
  laid_out lo bs = true ->
  lo + fold_right (fun b acc => snd b + acc) 0 bs <= chain_end lo bs.
Proof.
  induction bs as [| [a n] rest IH]; intros lo Hl; simpl; [lia |].
  simpl in Hl. rewrite !andb_true_iff, Z.leb_le in Hl.
  destruct Hl as [[H1 _] H3]. specialize (IH _ H3). lia.
Qed.

(** X8. The blocks a run of [alloc] calls hands out never overlap: each
    one starts at or after the end of every block handed out before it. *)
Theorem alloc_blocks_disjoint s reqs (i j : nat) a1 n1 a2 n2 :
  wf s -> Forall op_in_range (alloc_ops reqs) -> (i < j)%nat ->
  nth_error (blocks (events s (alloc_ops reqs))) i = Some (a1, n1) ->
  nth_error (blocks (events s (alloc_ops reqs))) j = Some (a2, n2) ->
  a1 + n1 <= a2.
Proof.
  intros Hwf Hall Hij Hi Hj.
  destruct (alloc_run_chain reqs s Hwf Hall) as [Hl _].
  eapply laid_out_ordered; eauto.
Qed.

(** X9. After a run of [alloc] calls [bytes_used()] has grown by at least
    the sizes of the blocks handed out. *)
Theorem alloc_bytes_used_lower_bound s reqs :
  wf s -> Forall op_in_range (alloc_ops reqs) ->
  bytes_used s + allocated_bytes (events s (alloc_ops reqs))
  <= bytes_used (exec s (alloc_ops reqs)).
Proof.
  intros Hwf Hall.
  pose proof (exec_wf _ s Hwf Hall) as Hwf'.
  destruct (exec_same_region (alloc_ops reqs) s) as (Hb & _ & _).
  destruct (alloc_run_chain reqs s Hwf Hall) as [Hl He].
  pose proof (laid_out_sum _ _ Hl) as Hsum.
  rewrite (bytes_used_wf _ Hwf), (bytes_used_wf _ Hwf').
  unfold allocated_bytes. lia.
Qed.

(** X10. For a type whose alignment is a power of two not above its size
    (as [alignof(T)] and [sizeof(T)] are), [alloc_t<T>()] does what
    [alloc(sizeof(T), alignof(T))] does. *)
Theorem alloc_t_is_alloc s type_size align_req :
  0 < type_size -> is_power_of_two align_req = true ->
  align_req <= type_size ->
  alloc_t s type_size align_req = alloc s type_size align_req.
Proof.
  intros Hpos Hp Hle. unfold alloc_t, alloc. rewrite Hp.
  destruct (Z.eqb_spec type_size 0) as [| _]; [lia |]. simpl.
  destruct (Z.gtb_spec type_size (capacity_ s)) as [| Hfit]; [reflexivity |].
  destruct (Z.gtb_spec align_req (capacity_ s)); [lia | reflexivity].
Qed.

(** X11. [reset()] empties the allocator: [bytes_used() == 0] and
    [bytes_remaining() == capacity()]. It is the same as restoring the
    checkpoint [base], which always succeeds, and resetting twice is
    resetting once. *)
Theorem reset_spec s :
  region_ok s ->
  bytes_used (reset s) = 0
  /\ bytes_remaining (reset s) = capacity s
  /\ restore_checkpoint s (start_marker_ s) = (Ok tt, reset s)
  /\ reset (reset s) = reset s.
Proof.
  intros Hreg.
  assert (Hwf : wf (reset s)).
  { split; [exact Hreg |]. destruct Hreg as (? & ? & ?).
    unfold cursor_ok. simpl. lia. }
  rewrite (bytes_remaining_wf _ Hwf), (bytes_used_wf _ Hwf).
  unfold capacity. simpl.
  split; [lia |]. split; [lia |]. split; [| reflexivity].
  destruct (restore_cases s (start_marker_ s) Hreg) as [[_ Hout] | [E _]].
  - destruct Hreg as (? & ? & ?). lia.
  - exact E.
Qed.

Lemma align_address_one a : in_range a -> align_address a 1 = a.
Proof.
  intros Ha. unfold in_range in Ha.
  assert (Hk : 0 <= 0 < width) by (unfold width; lia).
  change 1 with (2 ^ 0).
  pose proof (align_address_bounds a 0 Hk (proj1 Ha)) as Hb.
  change (2 ^ 0) with 1 in *. lia.
Qed.

(** A full arena serves nothing. *)
Lemma alloc_when_full s size alignment :
  wf s -> in_range size -> in_range alignment ->
  bytes_remaining s = 0 ->
  alloc s size alignment = (nullptr, s).
Proof.
  intros Hwf Hsz Hal Hrem.
  rewrite (bytes_remaining_wf s Hwf) in Hrem.
  destruct (Z.eq_dec (fst (alloc s size alignment)) nullptr) as [Hn | Hnn].
  - destruct (alloc_cases s size alignment Hwf Hsz Hal)
      as [[E _] | (a & _ & E & Hne & _)]; [exact E |].
    rewrite E in Hn. simpl in Hn. contradiction.
  - exfalso.
    destruct (alloc_success s size alignment Hwf Hsz Hal Hnn)
      as (a & _ & _ & Hbnd & _ & Hpos & Hreg).
    unfold in_region in Hreg. lia.
Qed.

(** X12. With alignment 1 there is no padding: a request for exactly the
    bytes that remain is served at the cursor and fills the arena; after
    it [bytes_remaining() == 0] and every [alloc] returns [nullptr],
    leaving the allocator as it is. *)
Theorem alloc_exact_fit s :
  wf s -> 0 < bytes_remaining s ->
  alloc s (bytes_remaining s) 1
  = (active_marker_ s, set_active s (start_marker_ s + capacity_ s))
  /\ bytes_remaining (snd (alloc s (bytes_remaining s) 1)) = 0
  /\ (forall size alignment, in_range size -> in_range alignment ->
        alloc (snd (alloc s (bytes_remaining s) 1)) size alignment
        = (nullptr, snd (alloc s (bytes_remaining s) 1))).
Proof.
  intros Hwf Hrem.
  pose proof (bytes_remaining_wf s Hwf) as Er. rewrite Er in *.
  pose proof Hwf as [(Hb & Hc & He) Hcur]. unfold cursor_ok in Hcur.
  set (n := start_marker_ s + capacity_ s - active_marker_ s) in *.
  assert (Hn : in_range n) by (unfold in_range, n; lia).
  assert (H1 : in_range 1) by (unfold in_range; rewrite modulus_eq; lia).
  assert (Hcr : in_range (active_marker_ s)) by (unfold in_range; lia).
  assert (Hnn : fst (alloc s n 1) <> nullptr).
  { destruct (alloc_cases s n 1 Hwf Hn H1)
      as [[_ Hwhy] | (a & Ea & E & Hne & _)].
    - exfalso. rewrite (align_address_one _ Hcr) in Hwhy.
      unfold in_region, n in Hwhy.
      destruct Hwhy as [H | [H | [H | H]]];
        first [lia | discriminate H | unfold n in *; lia].
    - rewrite E. exact Hne. }
  destruct (alloc_success s n 1 Hwf Hn H1 Hnn) as (a & E & _ & Hbnd & _).
  assert (Ea : a = active_marker_ s) by lia. subst a.
  assert (Eend : active_marker_ s + n = start_marker_ s + capacity_ s)
    by (unfold n; lia).
  rewrite E, Eend. split; [reflexivity |]. simpl.
  assert (Hwf' : wf (set_active s (start_marker_ s + capacity_ s))).
  { split; [split; auto |]. unfold cursor_ok. simpl. lia. }
  assert (Hzero : bytes_remaining (set_active s (start_marker_ s + capacity_ s))
                  = 0)
    by (rewrite (bytes_remaining_wf _ Hwf'); simpl; lia).
  split; [exact Hzero |].
  intros size alignment Hsz Hal.
  apply alloc_when_full; assumption.
Qed.

(** X13. A checkpoint guard gives the allocator back as it found it: for
    whatever calls ([alloc], [reset], [restore_checkpoint]) were made in its
    scope, its destructor does not throw and restores the very allocator
    the guard was constructed on. *)
Theorem checkpoint_guard_restores s ops :
  wf s ->
  StackCheckpoint.dtor (StackCheckpoint.ctor s) (exec s ops) = (Ok tt, s).
Proof.
  intros [Hreg Hcur]. unfold StackCheckpoint.dtor, StackCheckpoint.ctor. simpl.
  destruct (exec_same_region ops s) as (Hb & Hc & Ho).
  assert (Hreg' : region_ok (exec s ops))
    by (unfold region_ok; rewrite Hb, Hc; exact Hreg).
  destruct (restore_cases (exec s ops) (save_checkpoint s) Hreg')
    as [[_ Hout] | [E _]].
  - unfold save_checkpoint, cursor_ok in *. rewrite Hb, Hc in Hout. lia.
  - rewrite E. f_equal. unfold set_active, save_checkpoint.
    rewrite Hb, Hc, Ho. destruct s; reflexivity.
Qed.

(** X14. Nested guards. Destroyed innermost first, the inner guard gives
    back the allocator it was constructed on and the outer one the original
    allocator. Destroyed in the wrong order nothing throws, but the inner
    guard, destroyed last, moves the cursor forward again to where it was
    constructed: the allocator does not end as the outer guard found it
    unless nothing was used between the two constructions. *)
Theorem checkpoint_guards_nested s0 ops1 ops2 :
  wf s0 -> Forall op_in_range ops1 ->
  StackCheckpoint.dtor (StackCheckpoint.ctor (exec s0 ops1))
                       (exec (exec s0 ops1) ops2)
  = (Ok tt, exec s0 ops1)
  /\ StackCheckpoint.dtor (StackCheckpoint.ctor s0) (exec s0 ops1) = (Ok tt, s0)
  /\ StackCheckpoint.dtor (StackCheckpoint.ctor s0) (exec (exec s0 ops1) ops2)
     = (Ok tt, s0)
  /\ StackCheckpoint.dtor (StackCheckpoint.ctor (exec s0 ops1)) s0
     = (Ok tt, exec s0 ops1).
Proof.
  intros Hwf Hall.
  pose proof (exec_wf ops1 s0 Hwf Hall) as Hwf1.
  assert (Hgen : forall a b, wf a -> same_region a b ->
            StackCheckpoint.dtor (StackCheckpoint.ctor a) b = (Ok tt, a)).
  { intros a b [Hreg Hcur] (Hb & Hc & Ho).
    unfold StackCheckpoint.dtor, StackCheckpoint.ctor. simpl.
    assert (Hreg' : region_ok b)
      by (unfold region_ok; rewrite Hb, Hc; exact Hreg).
    destruct (restore_cases b (save_checkpoint a) Hreg') as [[_ Hout] | [E _]].
    - unfold save_checkpoint, cursor_ok in *. rewrite Hb, Hc in Hout. lia.
    - rewrite E. f_equal. unfold set_active, save_checkpoint.
      rewrite Hb, Hc, Ho. destruct a; reflexivity. }
  pose proof (exec_same_region ops1 s0) as R1.
  pose proof (exec_same_region ops2 (exec s0 ops1)) as R2.
  repeat split; apply Hgen; auto.
  - unfold same_region in *. intuition congruence.
  - unfold same_region in *. intuition congruence.
Qed.

End ArenaLayout.

(** ** ObjectPool: construction, reservation, the try variants *)

Local Close Scope Z_scope.
Local Open Scope nat_scope.

Section PoolMore.
Import ObjectPool.
Context {T : Type} {A : AcquireHook T} {R : ReleaseHook T}
        {D : DefaultConstructible T}.


(** The objects a finished batch appended are default-constructed ones
    passed through the release hook. *)
Lemma emplace_released_new n : forall objs objs',
  emplace_released n objs = (objs', None) ->
  forall i, length objs <= i < length objs + n ->
    exists v, value_type_ctor i = Ok v /\
              nth_error objs' i = Some (on_release v).
Proof.
  induction n as [| n IH]; intros objs objs' E i Hi; [lia |].
  simpl in E.
  destruct (value_type_ctor (length objs)) as [v | e] eqn:Ev; [| discriminate].
  destruct (Nat.eq_dec i (length objs)) as [-> | Hne].
  - exists v. split; [exact Ev |].
    pose proof (emplace_released_prefix _ _ _ _ E) as Hpre.
    rewrite length_app in Hpre. simpl in Hpre.
    assert (Hn : nth_error (firstn (length objs + 1) objs') (length objs)
                 = nth_error (objs ++ [on_release v]) (length objs))
      by (rewrite Hpre; reflexivity).
    rewrite nth_error_firstn in Hn.
    destruct (Nat.ltb_spec (length objs) (length objs + 1)); [| lia].
    rewrite Hn, nth_error_app2, Nat.sub_diag by lia. reflexivity.
  - apply (IH _ _ E). rewrite length_app. simpl. lia.
Qed.

(** X15. A pool the sized constructor builds holds exactly [init_size]
    objects, each a default-constructed object passed through the release
    hook; its limit is the one given (none for a given limit of zero), the
    initial size was not above that limit, and the pool is within it. *)
Theorem ctor_contents init_size limit (p : t T) :
  ctor init_size limit = Ok p ->
  size p = init_size
  /\ size_limit_ p = match limit with Some 0 => None | _ => limit end
  /\ (forall l, limit = Some l -> init_size <= l)
  /\ within_limit p
  /\ (forall i, i < init_size ->
        exists v, value_type_ctor i = Ok v /\
                  nth_error (objects_ p) i = Some (on_release v)).
Proof.
  intros Hc. destruct (ctor_ok _ _ _ Hc) as (Hsz & Hlim & Hin).
  split; [exact Hsz |]. split; [exact Hlim |].
  unfold ctor in Hc.
  destruct (over_limit limit init_size) eqn:Hov; [discriminate |].
  destruct (emplace_released init_size []) as [objs [e |]] eqn:E;
    [discriminate |].
  injection Hc as <-. split; [| split; [exact Hin |]].
  - intros l ->. simpl in Hov. apply Nat.ltb_ge in Hov. exact Hov.
  - intros i Hi. apply (emplace_released_new _ _ _ E). simpl. lia.
Qed.









End PoolMore.

(** ** ObjectPool: sequences of calls, and leases *)

Section PoolSequences.
Import ObjectPool PoolTrace.
Context {T : Type} {A : AcquireHook T} {R : ReleaseHook T}.

Lemma add_all_room xs : forall p : t T,
  match size_limit_ p with
  | Some l => size p + length xs <= l
  | None => True
  end ->
  add_all p xs
  = (Ok tt, mk (objects_ p ++ map on_release xs) (size_limit_ p)).
Proof.
  induction xs as [| x xs IH]; intros p Hroom; simpl.
  - rewrite app_nil_r. destruct p; reflexivity.
  - destruct (add_room p x) as [E _].
    { apply at_limit_false_iff. destruct (size_limit_ p); [| trivial].
      simpl in Hroom. lia. }
    rewrite E. rewrite IH; simpl.
    + rewrite <- app_assoc. reflexivity.
    + destruct (size_limit_ p); [| trivial].
      unfold size in *. simpl in *. rewrite length_app. simpl. lia.
Qed.

Lemma take_n_back ys : forall (objs : list T) limit,
  take_n (length ys) (mk (objs ++ ys) limit)
  = (Ok (rev (map on_acquire ys)), mk objs limit).
Proof.
  induction ys as [| y ys IH] using rev_ind; intros objs limit.
  - simpl. rewrite app_nil_r. reflexivity.
  - rewrite length_app, Nat.add_1_r. simpl.
    rewrite app_assoc, take_snoc, IH.
    rewrite map_app, rev_app_distr. reflexivity.
Qed.

(** X21. Last in, first out, for any number of objects: when the pool has
    room for all of a list of objects, adding them in order succeeds, and
    taking as many back returns them in reverse order (each passed through
    the release and then the acquire hook) and leaves the pool as it was. *)
Theorem add_all_take_n (p : t T) (xs : list T) :
  match size_limit_ p with
  | Some l => size p + length xs <= l
  | None => True
  end ->
  fst (add_all p xs) = Ok tt
  /\ size (snd (add_all p xs)) = size p + length xs
  /\ take_n (length xs) (snd (add_all p xs))
     = (Ok (rev (map (fun x => on_acquire (on_release x)) xs)), p).
Proof.
  intros Hroom. rewrite (add_all_room xs p Hroom). simpl.
  split; [reflexivity |]. split.
  - unfold size. simpl. rewrite length_app, length_map. reflexivity.
  - rewrite <- (length_map on_release xs), take_n_back, map_map.
    destruct p; reflexivity.
Qed.

(** X22. Adding more objects than the limit leaves room for: the objects
    that fit are added in order, the first one that does not fit makes
    [add] throw [LimitExceeded], and the pool is left full. *)
Theorem add_all_hits_limit xs : forall (p : t T) (l : nat),
  size_limit_ p = Some l -> size p <= l -> l < size p + length xs ->
  add_all p xs
  = (Throw LimitExceeded,
     mk (objects_ p ++ map on_release (firstn (l - size p) xs)) (Some l))
  /\ size (snd (add_all p xs)) = l.
Proof.
  induction xs as [| x xs IH]; intros p l Hl Hle Hlt; simpl in *; [lia |].
  destruct (Nat.eq_dec (size p) l) as [Hfull | Hnot].
  - destruct (add_full p x) as [E _].
    { apply at_limit_true_iff. exists l. split; [exact Hl | lia]. }
    rewrite E. rewrite Hfull, Nat.sub_diag. simpl. rewrite app_nil_r.
    destruct p as [objs lim]. simpl in *. subst lim. auto.
  - destruct (add_room p x) as [E _].
    { apply at_limit_false_iff. rewrite Hl. lia. }
    rewrite E.
    assert (Hsz : size (mk (objects_ p ++ [on_release x]) (size_limit_ p))
                  = S (size p)) by apply size_snoc.
    destruct (IH (mk (objects_ p ++ [on_release x]) (size_limit_ p)) l)
      as [E2 S2]; [exact Hl | lia | lia |].
    rewrite E2 in *. simpl in *. split; [| exact S2].
    rewrite Hsz. replace (l - size p) with (S (l - S (size p))) by lia.
    simpl. rewrite <- app_assoc. reflexivity.
Qed.

(** X23. [set_size_limit(0)] is a hard limit of zero, not the "unlimited"
    of the constructor: after it every [add] throws and every [try_add]
    returns false, whereas a pool constructed with sizes [(0, 0)] takes any
    object. The objects in the pool are not touched by [set_size_limit]. *)
Theorem set_size_limit_zero {D : DefaultConstructible T} (p : t T) (x : T) :
  add (set_size_limit p (Some 0)) x
  = (Throw LimitExceeded, set_size_limit p (Some 0))
  /\ try_add (set_size_limit p (Some 0)) x = (false, set_size_limit p (Some 0))
  /\ objects_ (set_size_limit p (Some 0)) = objects_ p
  /\ (forall q, ctor 0 (Some 0) = Ok q ->
        add q x = (Ok tt, mk [on_release x] None)).
Proof.
  split; [| split; [| split]]; try reflexivity.
  intros q Hq. rewrite ctor_zero_zero in Hq. injection Hq as <-. reflexivity.
Qed.

(** X24. A lease taken and dropped: on a non-empty pool within its limit
    the block [{ PoolLease lease(pool); use(lease.get()); }] ends without an
    exception and with the pool at its old size; the object that was at the
    back is at the back again, after the acquire hook, the caller's use and
    the release hook. On an empty pool the lease constructor throws
    [PoolExhausted] and the pool is untouched. *)
Theorem lease_scope_round_trip (p : t T) (use : T -> T) :
  within_limit p ->
  (forall front x, objects_ p = front ++ [x] ->
     scoped p use
     = (Ok tt, mk (front ++ [on_release (use (on_acquire x))]) (size_limit_ p))
     /\ size (snd (scoped p use)) = size p)
  /\ (objects_ p = [] -> scoped p use = (Throw PoolExhausted, p)).
Proof.
  intros Hin. split.
  - intros front x Hobjs. destruct p as [objs lim]. simpl in *. subst objs.
    unfold scoped, PoolLease.ctor. rewrite take_snoc.
    unfold PoolLease.dtor, modify. simpl.
    destruct (add_room (mk front lim) (use (on_acquire x))) as [E _].
    { apply at_limit_false_iff. unfold within_limit, size in *. simpl in *.
      destruct lim; [| trivial]. rewrite length_app in Hin. simpl in Hin. lia. }
    rewrite E. simpl. split; [reflexivity |].
    unfold size. simpl. rewrite !length_app. reflexivity.
  - intros Hobjs. unfold scoped, PoolLease.ctor, take. rewrite Hobjs.
    reflexivity.
Qed.

(** X25. A leased object goes back at most once. After [release()] the
    caller holds the object and the destructor returns nothing: the pool
    stays one object short. After a move the moved-from lease returns
    nothing and the new lease returns the object as the old one would
    have. *)
Theorem lease_release_and_move (p : t T) (front : list T) (x : T) :
  objects_ p = front ++ [x] ->
  exists l,
    PoolLease.ctor p = (Ok l, mk front (size_limit_ p))
    /\ PoolLease.get l = on_acquire x
    /\ fst (PoolLease.release l) = on_acquire x
    /\ PoolLease.dtor (snd (PoolLease.release l)) (mk front (size_limit_ p))
       = (Ok tt, mk front (size_limit_ p))
    /\ PoolLease.dtor (snd (PoolLease.move_ctor l)) (mk front (size_limit_ p))
       = (Ok tt, mk front (size_limit_ p))
    /\ PoolLease.dtor (fst (PoolLease.move_ctor l)) (mk front (size_limit_ p))
       = PoolLease.dtor l (mk front (size_limit_ p))
    /\ size (mk front (size_limit_ p)) + 1 = size p.
Proof.
  intros Hobjs. destruct p as [objs lim]. simpl in *. subst objs.
  exists (PoolLease.mk (on_acquire x) true).
  unfold PoolLease.ctor. rewrite take_snoc.
  repeat split. unfold size. simpl. rewrite length_app. reflexivity.
Qed.

End PoolSequences.

(** ** The further properties on concrete inputs *)

Section ArenaWitnesses.
Import Word Alignment StackAllocator ArenaTrace Demo.
Local Open Scope Z_scope.

Ltac arith :=
  unfold wf, region_ok, cursor_ok, in_range, op_in_range, width; cbn;
  rewrite ?modulus_eq; repeat split; lia.

Lemma arena0_wf : wf arena0.
Proof. arith. Defined.

Lemma calls0_in_range : Forall op_in_range calls0.
Proof. unfold calls0. repeat constructor; arith. Defined.

Lemma requests0_in_range :
  Forall op_in_range (alloc_ops [(8, 8); (3, 1); (100, 4); (16, 16)]).
Proof. unfold alloc_ops. cbn. repeat constructor; arith. Defined.

Lemma is_power_of_two_iff_witness :
  is_power_of_two 16 = true <-> exists k, 0 <= k < width /\ 16 = 2 ^ k.
Proof. exact (is_power_of_two_iff 16 ltac:(arith)). Defined.

Lemma align_address_least_witness :
  align_address 13 (2 ^ 3) mod 2 ^ 3 = 0
  /\ 13 <= align_address 13 (2 ^ 3) < 13 + 2 ^ 3.
Proof.
  pose proof (align_address_least 13 3 ltac:(arith) ltac:(lia) ltac:(arith))
    as (H1 & H2 & _).
  exact (conj H1 H2).
Defined.

Lemma align_address_fixpoint_witness :
  is_aligned (align_address 41 (2 ^ 4)) (2 ^ 4) = true
  /\ align_address 48 (2 ^ 4) = 48.
Proof.
  split.
  - exact (proj1 (proj2
             (align_address_fixpoint 41 4 ltac:(arith) ltac:(arith)))).
  - exact (proj1 (proj2 (proj2
             (align_address_fixpoint 48 4 ltac:(arith) ltac:(arith))))
             eq_refl).
Defined.

Lemma ctor_owned_fresh_witness :
  wf arena0 /\ start_marker_ arena0 = 4096 /\ capacity arena0 = 64 /\
  owns_memory_ arena0 = true /\ bytes_used arena0 = 0 /\
  bytes_remaining arena0 = 64.
Proof.
  exact (proj2 (ctor_owned_fresh 4096 64 ltac:(arith) ltac:(arith)
                  ltac:(arith)) arena0 eq_refl).
Defined.

Lemma ctor_buffer_region_witness :
  4099 <= 4112 < 4099 + 2 ^ 4 /\ 4112 + 51 = 4099 + 64.
Proof.
  pose proof (ctor_buffer_region 4 4099 64 (mk 4112 4112 51 false)
                ltac:(arith) ltac:(arith) ltac:(arith) ltac:(arith) eq_refl)
    as (H1 & _ & H2 & _).
  exact (conj H1 H2).
Defined.

Lemma exec_accounting_witness :
  capacity (exec arena0 calls0) = 64
  /\ 0 <= bytes_used (exec arena0 calls0) <= 64
  /\ bytes_used (exec arena0 calls0) + bytes_remaining (exec arena0 calls0) = 64.
Proof. exact (exec_accounting arena0 calls0 arena0_wf calls0_in_range). Defined.

Lemma alloc_success_shape_witness :
  fst (alloc (snd (alloc arena0 3 1)) 16 16)
  = Spec.align_up (active_marker_ (snd (alloc arena0 3 1))) 16.
Proof.
  refine (proj1 (alloc_success_shape (snd (alloc arena0 3 1)) 16 16
                   ltac:(arith) ltac:(arith) ltac:(arith) _)).
  vm_compute. discriminate.
Defined.

Example alloc_after_three_bytes :
  alloc (snd (alloc arena0 3 1)) 16 16
  = (4112, mk 4096 4128 64 true).
Proof. vm_compute. reflexivity. Qed.

Example blocks_of_requests0 :
  blocks (events arena0 (alloc_ops [(8, 8); (3, 1); (100, 4); (16, 16)]))
  = [(4096, 8); (4104, 3); (4112, 16)].
Proof. vm_compute. reflexivity. Qed.

Lemma alloc_blocks_disjoint_witness : 4096 + 8 <= 4112.
Proof.
  exact (alloc_blocks_disjoint arena0 [(8, 8); (3, 1); (100, 4); (16, 16)]
           0 2 4096 8 4112 16 arena0_wf requests0_in_range
           (le_S _ _ (le_n 1)) eq_refl eq_refl).
Defined.

Lemma alloc_bytes_used_lower_bound_witness :
  bytes_used arena0
  + allocated_bytes
      (events arena0 (alloc_ops [(8, 8); (3, 1); (100, 4); (16, 16)]))
  <= bytes_used (exec arena0 (alloc_ops [(8, 8); (3, 1); (100, 4); (16, 16)])).
Proof.
  exact (alloc_bytes_used_lower_bound arena0 _ arena0_wf requests0_in_range).
Defined.

Lemma alloc_t_is_alloc_witness :
  alloc_t (mk 4096 4096 4 true) 4 4 = alloc (mk 4096 4096 4 true) 4 4.
Proof.
  exact (alloc_t_is_alloc (mk 4096 4096 4 true) 4 4
           ltac:(lia) eq_refl ltac:(lia)).
Defined.

Lemma reset_spec_witness :
  bytes_used (reset (mk 4096 4128 64 true)) = 0
  /\ bytes_remaining (reset (mk 4096 4128 64 true)) = 64.
Proof.
  pose proof (reset_spec (mk 4096 4128 64 true) ltac:(arith)) as (H1 & H2 & _).
  exact (conj H1 H2).
Defined.

Lemma alloc_exact_fit_witness :
  alloc arena0 (bytes_remaining arena0) 1
  = (active_marker_ arena0,
     set_active arena0 (start_marker_ arena0 + capacity_ arena0)).
Proof.
  refine (proj1 (alloc_exact_fit arena0 arena0_wf _)).
  vm_compute. reflexivity.
Defined.

Lemma checkpoint_guard_restores_witness :
  StackCheckpoint.dtor (StackCheckpoint.ctor arena0) (exec arena0 calls0)
  = (Ok tt, arena0).
Proof. exact (checkpoint_guard_restores arena0 calls0 arena0_wf). Defined.

Lemma checkpoint_guards_nested_witness :
  StackCheckpoint.dtor (StackCheckpoint.ctor (exec arena0 [Alloc 8 8])) arena0
  = (Ok tt, exec arena0 [Alloc 8 8]).
Proof.
  refine (proj2 (proj2 (proj2
            (checkpoint_guards_nested arena0 [Alloc 8 8] [Alloc 16 16]
               arena0_wf _)))).
  repeat constructor; arith.
Defined.

End ArenaWitnesses.

Section PoolWitnesses.
Import ObjectPool PoolTrace Demo.
Local Open Scope nat_scope.

Lemma ctor_contents_witness :
  size (mk [mkObject 0 EmptyString; mkObject 0 EmptyString;
            mkObject 0 EmptyString] (Some 5)) = 3.
Proof. exact (proj1 (ctor_contents 3 (Some 5) _ eq_refl)). Defined.


Example try_reserve_to_three :
  try_reserve (mk [item_A] (Some 3)) 3
  = (Ok true, mk [item_A; mkObject 0 EmptyString; mkObject 0 EmptyString]
                 (Some 3)).
Proof. reflexivity. Qed.

Example try_reserve_over_limit :
  try_reserve (mk [item_A; item_B] (Some 8)) 10
  = (Ok false, mk [item_A; item_B] (Some 8)).
Proof. reflexivity. Qed.

Lemma add_all_take_n_witness :
  take_n 2 (snd (add_all (mk [item_A] (Some 3)) [item_B; item_A]))
  = (Ok [item_A; item_B], mk [item_A] (Some 3)).
Proof.
  exact (proj2 (proj2 (add_all_take_n (mk [item_A] (Some 3)) [item_B; item_A]
                         (le_n 3)))).
Defined.

Lemma add_all_hits_limit_witness :
  add_all (mk [item_A] (Some 2)) [item_B; item_A; item_B]
  = (Throw LimitExceeded, mk [item_A; item_B] (Some 2)).
Proof.
  exact (proj1 (add_all_hits_limit [item_B; item_A; item_B]
                  (mk [item_A] (Some 2)) 2 eq_refl (le_S _ _ (le_n 1))
                  (le_S _ _ (le_n 3)))).
Defined.

Lemma lease_scope_round_trip_witness :
  scoped (mk [item_A; item_B] None)
         (fun o => mkObject (value o) "Modified Object")
  = (Ok tt, mk [item_A; mkObject 2 "Modified Object"] None).
Proof.
  exact (proj1 (proj1 (lease_scope_round_trip (mk [item_A; item_B] None)
                         (fun o => mkObject (value o) "Modified Object") I)
                  [item_A] item_B eq_refl)).
Defined.

Lemma lease_release_and_move_witness :
  exists l,
    PoolLease.ctor (mk [item_A; item_B] None) = (Ok l, mk [item_A] None)
    /\ fst (PoolLease.release l) = item_B.
Proof.
  destruct (lease_release_and_move (mk [item_A; item_B] None) [item_A] item_B
              eq_refl) as (l & H1 & _ & H2 & _).
  exists l. exact (conj H1 H2).
Defined.

End PoolWitnesses.

(* ================================================================= *)
(** * The byte-order helpers and the memory reader *)

Local Close Scope nat_scope.
Local Open Scope Z_scope.

(** ** IoTypes.hpp: byte swaps *)

Section ByteSwap.
Import IoTypes.

Lemma land_mask_byte y t :
  0 <= t -> Z.land y (Z.shiftl 255 t) = ((y / 2 ^ t) mod 256) * 2 ^ t.
Proof.
  intros Ht.
  change 255 with (Z.ones 8). change 256 with (2 ^ 8).
  rewrite <- Z.land_ones by lia.
  rewrite <- Z.shiftr_div_pow2, <- Z.shiftl_mul_pow2 by lia.
  rewrite Z.shiftl_land.
  rewrite <- Z.ldiff_ones_r by lia.
  rewrite Z.ldiff_land, <- Z.land_assoc. f_equal.
  rewrite Z.land_comm, <- Z.ldiff_land, Z.ldiff_ones_r by lia.
  rewrite Z.shiftr_shiftl_l by lia. rewrite Z.sub_diag. reflexivity.
Qed.

Lemma lor_high_low hi lo s :
  0 <= s -> 0 <= lo < 2 ^ s -> Z.lor (hi * 2 ^ s) lo = hi * 2 ^ s + lo.
Proof.
  intros Hs Hlo.
  pose proof (Z.add_lor_land (hi * 2 ^ s) lo) as H.
  assert (Hz : Z.land (hi * 2 ^ s) lo = 0).
  { replace lo with (Z.land lo (Z.ones s))
      by (rewrite Z.land_ones by lia; apply Z.mod_small; lia).
    rewrite (Z.land_comm lo), Z.land_assoc, (Z.land_ones (hi * 2 ^ s)) by lia.
    rewrite Z.mod_mul by lia. apply Z.land_0_l. }
  lia.
Qed.

Lemma bswap_16_bytes x :
  0 <= x < 2 ^ 16 -> bswap_16 x = (x mod 256) * 256 + x / 256.
Proof.
  intros Hx. unfold bswap_16, wrap16.
  rewrite Z.shiftl_mul_pow2, Z.shiftr_div_pow2 by lia.
  rewrite lor_high_low by (try lia; change (2^16) with 65536 in *; change (2^8) with 256;  Z.div_mod_to_equations; lia).
  change (2^16) with 65536 in *; change (2^8) with 256.
  Z.div_mod_to_equations; lia.
Qed.

Ltac zdm := Z.div_mod_to_equations; lia.

Lemma byte_range v : 0 <= v mod 256 < 256.
Proof. apply Z.mod_pos_bound. lia. Qed.

Lemma bswap_32_bytes x :
  0 <= x < 2 ^ 32 ->
  bswap_32 x = (x mod 256) * 2 ^ 24 + ((x / 2 ^ 8) mod 256) * 2 ^ 16
               + ((x / 2 ^ 16) mod 256) * 2 ^ 8 + (x / 2 ^ 24) mod 256.
Proof.
  intros Hx. unfold bswap_32, wrap32.
  change 0xFF000000 with (Z.shiftl 255 24).
  change 0x00FF0000 with (Z.shiftl 255 16).
  change 0x0000FF00 with (Z.shiftl 255 8).
  change 0x000000FF with (Z.shiftl 255 0).
  rewrite !land_mask_byte by lia.
  rewrite !Z.shiftl_mul_pow2, !Z.shiftr_div_pow2 by lia.
  replace ((x * 2 ^ 24 mod 2 ^ 32 / 2 ^ 24) mod 256) with (x mod 256) by zdm.
  replace ((x * 2 ^ 8 mod 2 ^ 32 / 2 ^ 16) mod 256)
    with ((x / 2 ^ 8) mod 256) by zdm.
  replace ((x / 2 ^ 8 / 2 ^ 8) mod 256) with ((x / 2 ^ 16) mod 256) by zdm.
  replace ((x / 2 ^ 24 / 2 ^ 0) mod 256) with ((x / 2 ^ 24) mod 256) by zdm.
  pose proof (byte_range x) as H0.
  pose proof (byte_range (x / 2 ^ 8)) as H1.
  pose proof (byte_range (x / 2 ^ 16)) as H2.
  pose proof (byte_range (x / 2 ^ 24)) as H3.
  set (b0 := x mod 256) in *. set (b1 := (x / 2 ^ 8) mod 256) in *.
  set (b2 := (x / 2 ^ 16) mod 256) in *. set (b3 := (x / 2 ^ 24) mod 256) in *.
  rewrite (lor_high_low b0 (b1 * 2 ^ 16) 24) by lia.
  replace (b0 * 2 ^ 24 + b1 * 2 ^ 16) with ((b0 * 2 ^ 8 + b1) * 2 ^ 16) by lia.
  rewrite (lor_high_low _ (b2 * 2 ^ 8) 16) by lia.
  replace ((b0 * 2 ^ 8 + b1) * 2 ^ 16 + b2 * 2 ^ 8)
    with (((b0 * 2 ^ 8 + b1) * 2 ^ 8 + b2) * 2 ^ 8) by lia.
  rewrite (lor_high_low _ (b3 * 2 ^ 0) 8) by lia.
  lia.
Qed.

Lemma shifted_byte_64 x s t :
  0 <= x < 2 ^ 64 -> 0 <= s <= t -> t <= 56 ->
  ((x * 2 ^ s) mod 2 ^ 64 / 2 ^ t) mod 256 = (x / 2 ^ (t - s)) mod 256.
Proof.
  intros Hx Hs Ht.
  change 256 with (2 ^ 8).
  rewrite <- !Z.land_ones by lia.
  rewrite <- !Z.shiftl_mul_pow2, <- !Z.shiftr_div_pow2 by lia.
  apply Z.bits_inj'. intros n Hn.
  rewrite !Z.land_spec, !Z.shiftr_spec, Z.testbit_ones by lia.
  destruct (Z.leb_spec 0 n); [| lia].
  destruct (Z.ltb_spec n 8); simpl; rewrite ?andb_false_r; [| reflexivity].
  rewrite !andb_true_r.
  rewrite Z.land_spec, Z.shiftl_spec, Z.testbit_ones by lia.
  replace (n + t - s) with (n + (t - s)) by lia.
  destruct (Z.leb_spec 0 (n + t)); [| lia].
  destruct (Z.ltb_spec (n + t) 64); [| lia].
  simpl. rewrite andb_true_r. reflexivity.
Qed.

Lemma lor_bytes_64 b0 b1 b2 b3 b4 b5 b6 b7 :
  0 <= b0 < 256 -> 0 <= b1 < 256 -> 0 <= b2 < 256 -> 0 <= b3 < 256 ->
  0 <= b4 < 256 -> 0 <= b5 < 256 -> 0 <= b6 < 256 -> 0 <= b7 < 256 ->
  Z.lor (Z.lor (Z.lor (Z.lor (Z.lor (Z.lor (Z.lor
    (b0 * 2 ^ 56) (b1 * 2 ^ 48)) (b2 * 2 ^ 40)) (b3 * 2 ^ 32))
    (b4 * 2 ^ 24)) (b5 * 2 ^ 16)) (b6 * 2 ^ 8)) (b7 * 2 ^ 0)
  = b0 * 2 ^ 56 + b1 * 2 ^ 48 + b2 * 2 ^ 40 + b3 * 2 ^ 32
    + b4 * 2 ^ 24 + b5 * 2 ^ 16 + b6 * 2 ^ 8 + b7.
Proof.
  intros H0 H1 H2 H3 H4 H5 H6 H7.
  rewrite (lor_high_low b0 (b1 * 2 ^ 48) 56) by lia.
  replace (b0 * 2 ^ 56 + b1 * 2 ^ 48) with ((b0 * 2 ^ 8 + b1) * 2 ^ 48) by lia.
  rewrite (lor_high_low _ (b2 * 2 ^ 40) 48) by lia.
  replace ((b0 * 2 ^ 8 + b1) * 2 ^ 48 + b2 * 2 ^ 40)
    with ((b0 * 2 ^ 16 + b1 * 2 ^ 8 + b2) * 2 ^ 40) by lia.
  rewrite (lor_high_low _ (b3 * 2 ^ 32) 40) by lia.
  replace ((b0 * 2 ^ 16 + b1 * 2 ^ 8 + b2) * 2 ^ 40 + b3 * 2 ^ 32)
    with ((b0 * 2 ^ 24 + b1 * 2 ^ 16 + b2 * 2 ^ 8 + b3) * 2 ^ 32) by lia.
  rewrite (lor_high_low _ (b4 * 2 ^ 24) 32) by lia.
  replace ((b0 * 2 ^ 24 + b1 * 2 ^ 16 + b2 * 2 ^ 8 + b3) * 2 ^ 32 + b4 * 2 ^ 24)
    with ((b0 * 2 ^ 32 + b1 * 2 ^ 24 + b2 * 2 ^ 16 + b3 * 2 ^ 8 + b4) * 2 ^ 24)
    by lia.
  rewrite (lor_high_low _ (b5 * 2 ^ 16) 24) by lia.
  replace ((b0 * 2 ^ 32 + b1 * 2 ^ 24 + b2 * 2 ^ 16 + b3 * 2 ^ 8 + b4) * 2 ^ 24
           + b5 * 2 ^ 16)
    with ((b0 * 2 ^ 40 + b1 * 2 ^ 32 + b2 * 2 ^ 24 + b3 * 2 ^ 16 + b4 * 2 ^ 8
           + b5) * 2 ^ 16) by lia.
  rewrite (lor_high_low _ (b6 * 2 ^ 8) 16) by lia.
  replace ((b0 * 2 ^ 40 + b1 * 2 ^ 32 + b2 * 2 ^ 24 + b3 * 2 ^ 16 + b4 * 2 ^ 8
            + b5) * 2 ^ 16 + b6 * 2 ^ 8)
    with ((b0 * 2 ^ 48 + b1 * 2 ^ 40 + b2 * 2 ^ 32 + b3 * 2 ^ 24 + b4 * 2 ^ 16
           + b5 * 2 ^ 8 + b6) * 2 ^ 8) by lia.
  rewrite (lor_high_low _ (b7 * 2 ^ 0) 8) by lia.
  lia.
Qed.

Lemma bswap_64_bytes x :
  0 <= x < 2 ^ 64 ->
  bswap_64 x = (x mod 256) * 2 ^ 56 + ((x / 2 ^ 8) mod 256) * 2 ^ 48
               + ((x / 2 ^ 16) mod 256) * 2 ^ 40
               + ((x / 2 ^ 24) mod 256) * 2 ^ 32
               + ((x / 2 ^ 32) mod 256) * 2 ^ 24
               + ((x / 2 ^ 40) mod 256) * 2 ^ 16
               + ((x / 2 ^ 48) mod 256) * 2 ^ 8
               + (x / 2 ^ 56) mod 256.
Proof.
  intros Hx. unfold bswap_64, wrap64.
  change 0xFF00000000000000 with (Z.shiftl 255 56).
  change 0x00FF000000000000 with (Z.shiftl 255 48).
  change 0x0000FF0000000000 with (Z.shiftl 255 40).
  change 0x000000FF00000000 with (Z.shiftl 255 32).
  change 0x00000000FF000000 with (Z.shiftl 255 24).
  change 0x0000000000FF0000 with (Z.shiftl 255 16).
  change 0x000000000000FF00 with (Z.shiftl 255 8).
  change 0x00000000000000FF with (Z.shiftl 255 0).
  rewrite !land_mask_byte by lia.
  rewrite !Z.shiftl_mul_pow2, !Z.shiftr_div_pow2 by lia.
  rewrite (shifted_byte_64 x 56 56), (shifted_byte_64 x 40 48),
    (shifted_byte_64 x 24 40), (shifted_byte_64 x 8 32) by lia.
  replace (x / 2 ^ (56 - 56)) with x by (rewrite Z.div_1_r; reflexivity).
  replace (x / 2 ^ 8 / 2 ^ 24) with (x / 2 ^ 32)
    by (rewrite Z.div_div by lia; reflexivity).
  replace (x / 2 ^ 24 / 2 ^ 16) with (x / 2 ^ 40)
    by (rewrite Z.div_div by lia; reflexivity).
  replace (x / 2 ^ 40 / 2 ^ 8) with (x / 2 ^ 48)
    by (rewrite Z.div_div by lia; reflexivity).
  replace (x / 2 ^ 56 / 2 ^ 0) with (x / 2 ^ 56)
    by (rewrite Z.div_1_r; reflexivity).
  change (48 - 40) with 8. change (40 - 24) with 16. change (32 - 8) with 24.
  apply lor_bytes_64; apply byte_range.
Qed.

Lemma le_combine_nonneg bs : Forall is_byte bs -> 0 <= le_combine bs.
Proof.
  induction 1 as [| b rest Hb _ IH]; cbn [le_combine]; [lia |].
  unfold is_byte in Hb. lia.
Qed.

Lemma le_combine_bound bs :
  Forall is_byte bs -> le_combine bs < 256 ^ Z.of_nat (length bs).
Proof.
  induction 1 as [| b rest Hb _ IH]; [reflexivity |].
  cbn [le_combine length]. rewrite Nat2Z.inj_succ, Z.pow_succ_r by lia.
  unfold is_byte in Hb. lia.
Qed.

Lemma le_combine_byte k : forall bs,
  Forall is_byte bs ->
  (le_combine bs / 2 ^ (8 * Z.of_nat k)) mod 256 = nth k bs 0.
Proof.
  induction k as [| k IH]; intros bs Hb.
  - change (2 ^ (8 * Z.of_nat 0)) with 1. rewrite Z.div_1_r.
    destruct Hb as [| b rest Hb Hrest]; [reflexivity |].
    cbn [le_combine nth]. unfold is_byte in Hb.
    rewrite (Z.mul_comm 256 (le_combine rest)), Z.mod_add by lia.
    apply Z.mod_small. lia.
  - destruct Hb as [| b rest Hb Hrest].
    + cbn [le_combine nth]. rewrite Z.div_0_l by (apply Z.pow_nonzero; lia).
      reflexivity.
    + cbn [nth]. rewrite <- (IH rest Hrest).
      replace (2 ^ (8 * Z.of_nat (S k))) with (256 * 2 ^ (8 * Z.of_nat k)).
      * rewrite <- Z.div_div by (try apply Z.pow_pos_nonneg; lia).
        cbn [le_combine]. unfold is_byte in Hb.
        replace ((b + 256 * le_combine rest) / 256) with (le_combine rest);
          [reflexivity |].
        rewrite (Z.mul_comm 256 (le_combine rest)), Z.div_add by lia.
        rewrite (Z.div_small b) by lia. lia.
      * rewrite Nat2Z.inj_succ.
        replace (8 * Z.succ (Z.of_nat k)) with (8 + 8 * Z.of_nat k) by lia.
        rewrite Z.pow_add_r by lia. reflexivity.
Qed.

Lemma le_split_bytes n : forall x, Forall is_byte (le_split n x).
Proof.
  induction n as [| n IH]; intros x; simpl; constructor; [| apply IH].
  apply Z.mod_pos_bound. lia.
Qed.

Lemma le_split_length n x : length (le_split n x) = n.
Proof. revert x. induction n as [| n IH]; intros x; simpl; auto. Qed.

Lemma le_combine_split n : forall x,
  0 <= x < 256 ^ Z.of_nat n -> le_combine (le_split n x) = x.
Proof.
  induction n as [| n IH]; intros x Hx.
  - change (256 ^ Z.of_nat 0) with 1 in Hx. simpl. lia.
  - rewrite Nat2Z.inj_succ, Z.pow_succ_r in Hx by lia.
    cbn [le_split le_combine]. rewrite IH.
    + pose proof (Z.div_mod x 256). lia.
    + split; [apply Z.div_pos; lia |].
      apply Z.div_lt_upper_bound; lia.
Qed.

Ltac split_bytes :=
  repeat match goal with
         | H : Forall _ (_ :: _) |- _ => inversion H; subst; clear H
         end.

Lemma bswap_64_le_combine bs :
  length bs = 8%nat -> Forall is_byte bs ->
  bswap_64 (le_combine bs) = le_combine (rev bs).
Proof.
  intros Hlen Hb.
  pose proof (le_combine_nonneg bs Hb) as Hlo.
  pose proof (le_combine_bound bs Hb) as Hhi. rewrite Hlen in Hhi.
  rewrite bswap_64_bytes by (change (2 ^ 64) with (256 ^ Z.of_nat 8); lia).
  pose proof (le_combine_byte 0 bs Hb) as B0.
  pose proof (le_combine_byte 1 bs Hb) as B1.
  pose proof (le_combine_byte 2 bs Hb) as B2.
  pose proof (le_combine_byte 3 bs Hb) as B3.
  pose proof (le_combine_byte 4 bs Hb) as B4.
  pose proof (le_combine_byte 5 bs Hb) as B5.
  pose proof (le_combine_byte 6 bs Hb) as B6.
  pose proof (le_combine_byte 7 bs Hb) as B7.
  change (2 ^ (8 * Z.of_nat 0)) with 1 in B0. rewrite Z.div_1_r in B0.
  change (8 * Z.of_nat 1) with 8 in B1. change (8 * Z.of_nat 2) with 16 in B2.
  change (8 * Z.of_nat 3) with 24 in B3. change (8 * Z.of_nat 4) with 32 in B4.
  change (8 * Z.of_nat 5) with 40 in B5. change (8 * Z.of_nat 6) with 48 in B6.
  change (8 * Z.of_nat 7) with 56 in B7.
  rewrite B0, B1, B2, B3, B4, B5, B6, B7.
  destruct bs as [| b0 [| b1 [| b2 [| b3 [| b4 [| b5 [| b6 [| b7 [|]]]]]]]]];
    try discriminate.
  cbn [le_combine rev app nth]. lia.
Qed.

Lemma bswap_32_le_combine bs :
  length bs = 4%nat -> Forall is_byte bs ->
  bswap_32 (le_combine bs) = le_combine (rev bs).
Proof.
  intros Hlen Hb.
  pose proof (le_combine_nonneg bs Hb) as Hlo.
  pose proof (le_combine_bound bs Hb) as Hhi. rewrite Hlen in Hhi.
  rewrite bswap_32_bytes by (change (2 ^ 32) with (256 ^ Z.of_nat 4); lia).
  pose proof (le_combine_byte 0 bs Hb) as B0.
  pose proof (le_combine_byte 1 bs Hb) as B1.
  pose proof (le_combine_byte 2 bs Hb) as B2.
  pose proof (le_combine_byte 3 bs Hb) as B3.
  change (2 ^ (8 * Z.of_nat 0)) with 1 in B0. rewrite Z.div_1_r in B0.
  change (8 * Z.of_nat 1) with 8 in B1. change (8 * Z.of_nat 2) with 16 in B2.
  change (8 * Z.of_nat 3) with 24 in B3.
  rewrite B0, B1, B2, B3.
  destruct bs as [| b0 [| b1 [| b2 [| b3 [|]]]]]; try discriminate.
  cbn [le_combine rev app nth]. lia.
Qed.

Lemma bswap_16_le_combine bs :
  length bs = 2%nat -> Forall is_byte bs ->
  bswap_16 (le_combine bs) = le_combine (rev bs).
Proof.
  intros Hlen Hb.
  pose proof (le_combine_nonneg bs Hb) as Hlo.
  pose proof (le_combine_bound bs Hb) as Hhi. rewrite Hlen in Hhi.
  rewrite bswap_16_bytes by (change (2 ^ 16) with (256 ^ Z.of_nat 2); lia).
  pose proof (le_combine_byte 0 bs Hb) as B0.
  pose proof (le_combine_byte 1 bs Hb) as B1.
  change (2 ^ (8 * Z.of_nat 0)) with 1 in B0. rewrite Z.div_1_r in B0.
  change (2 ^ (8 * Z.of_nat 1)) with 256 in B1.
  assert (E : le_combine bs / 256 = (le_combine bs / 256) mod 256).
  { symmetry. apply Z.mod_small. split; [apply Z.div_pos; lia |].
    apply Z.div_lt_upper_bound; [lia |].
    change (256 ^ Z.of_nat 2) with (256 * 256) in Hhi. lia. }
  rewrite E, B0, B1.
  destruct bs as [| b0 [| b1 [|]]]; try discriminate.
  cbn [le_combine rev app nth]. lia.
Qed.

Lemma bswap_involutive_via (bswap : Z -> Z) (n : nat) x :
  (forall bs, length bs = n -> Forall is_byte bs ->
              bswap (le_combine bs) = le_combine (rev bs)) ->
  0 <= x < 256 ^ Z.of_nat n ->
  bswap (bswap x) = x /\ 0 <= bswap x < 256 ^ Z.of_nat n.
Proof.
  intros Hrev Hx.
  pose proof (le_combine_split n x Hx) as Ex.
  pose proof (le_split_bytes n x) as Hb.
  pose proof (le_split_length n x) as Hl.
  assert (Hb' : Forall is_byte (rev (le_split n x))) by (apply Forall_rev; exact Hb).
  assert (Hl' : length (rev (le_split n x)) = n) by (rewrite length_rev; exact Hl).
  assert (E1 : bswap x = le_combine (rev (le_split n x))).
  { rewrite <- Ex at 1. apply Hrev; assumption. }
  rewrite E1. split.
  - rewrite (Hrev _ Hl' Hb'), rev_involutive. exact Ex.
  - split; [apply le_combine_nonneg; exact Hb' |].
    rewrite <- Hl' at 2. apply le_combine_bound. exact Hb'.
Qed.

(** X26. Each byte swap reverses the bytes of its argument: applied to
    the value of a byte sequence of its width it returns the value of the
    reversed sequence. Hence swapping twice gives the argument back, and a
    swapped value fits the width. *)
Theorem bswap_reverses_bytes :
  (forall bs, length bs = 2%nat -> Forall is_byte bs ->
     bswap_16 (le_combine bs) = le_combine (rev bs))
  /\ (forall bs, length bs = 4%nat -> Forall is_byte bs ->
     bswap_32 (le_combine bs) = le_combine (rev bs))
  /\ (forall bs, length bs = 8%nat -> Forall is_byte bs ->
     bswap_64 (le_combine bs) = le_combine (rev bs))
  /\ (forall x, 0 <= x < 2 ^ 16 ->
     bswap_16 (bswap_16 x) = x /\ 0 <= bswap_16 x < 2 ^ 16)
  /\ (forall x, 0 <= x < 2 ^ 32 ->
     bswap_32 (bswap_32 x) = x /\ 0 <= bswap_32 x < 2 ^ 32)
  /\ (forall x, 0 <= x < 2 ^ 64 ->
     bswap_64 (bswap_64 x) = x /\ 0 <= bswap_64 x < 2 ^ 64).
Proof.
  split; [exact bswap_16_le_combine |].
  split; [exact bswap_32_le_combine |].
  split; [exact bswap_64_le_combine |].
  split; [| split].
  - intros x Hx. apply (bswap_involutive_via bswap_16 2 x bswap_16_le_combine Hx).
  - intros x Hx. apply (bswap_involutive_via bswap_32 4 x bswap_32_le_combine Hx).
  - intros x Hx. apply (bswap_involutive_via bswap_64 8 x bswap_64_le_combine Hx).
Qed.

Example bswap_samples :
  bswap_16 0x1234 = 0x3412 /\ bswap_32 0x12345678 = 0x78563412
  /\ bswap_64 0x0102030405060708 = 0x0807060504030201.
Proof. vm_compute. auto. Qed.

End ByteSwap.

(** ** MemoryReader *)

Section ReaderFacts.
Import Word IoTypes MemoryReader.

Lemma Forall_prefix {X : Type} (P : X -> Prop) n : forall l,
  Forall P l -> Forall P (firstn n l).
Proof.
  induction n as [| n IH]; intros l Hl; [constructor |].
  destruct Hl as [| x l Hx Hl]; simpl; constructor; auto.
Qed.

Lemma rest_length r : wf r -> Z.of_nat (length (rest r)) = size_ r - position_ r.
Proof.
  intros (Hs & _ & Hp & _). unfold rest. rewrite length_skipn. lia.
Qed.

Lemma rest_bytes r : wf r -> Forall is_byte (rest r).
Proof.
  intros (_ & _ & _ & Hb). unfold rest.
  rewrite <- (firstn_skipn (Z.to_nat (position_ r)) (data_ r)) in Hb.
  apply Forall_app in Hb. apply Hb.
Qed.

Lemma pos_add r n :
  wf r -> 0 <= n -> position_ r + n < modulus ->
  Word.add (position_ r) n = position_ r + n.
Proof.
  intros (_ & _ & Hp & _) Hn Hlt. unfold Word.add. apply wrap_small.
  unfold in_range. lia.
Qed.

Lemma remaining_eq r : wf r -> remaining r = size_ r - position_ r.
Proof.
  intros (_ & Hs & Hp & _). unfold remaining, Word.sub. apply wrap_small.
  unfold in_range. rewrite modulus_eq. lia.
Qed.

(** Inside the buffer [bytes_at] is the next [n] bytes. *)
Lemma bytes_at_inside r n :
  wf r -> 0 <= n -> position_ r + n <= size_ r ->
  bytes_at r (position_ r) n = Some (firstn (Z.to_nat n) (rest r))
  /\ length (firstn (Z.to_nat n) (rest r)) = Z.to_nat n
  /\ Forall is_byte (firstn (Z.to_nat n) (rest r)).
Proof.
  intros Hwf Hn Hfit. pose proof (rest_length r Hwf) as Hl.
  pose proof (rest_bytes r Hwf) as Hb.
  destruct Hwf as (Hs & _ & Hp & _). unfold bytes_at.
  destruct (Z.leb_spec 0 (position_ r)); [| lia].
  destruct (Z.leb_spec 0 n); [| lia].
  destruct (Z.leb_spec (position_ r + n) (Z.of_nat (length (data_ r))));
    [| lia].
  simpl. split; [reflexivity |]. split.
  - rewrite length_firstn. lia.
  - apply Forall_prefix. exact Hb.
Qed.

Lemma bytes_at_outside r n :
  wf r -> size_ r < position_ r + n -> bytes_at r (position_ r) n = None.
Proof.
  intros (Hs & _ & Hp & _) Hout. unfold bytes_at.
  destruct (Z.leb_spec (position_ r + n) (Z.of_nat (length (data_ r))));
    [lia |].
  rewrite andb_false_r. reflexivity.
Qed.

(** Whatever the platform's byte order, the value handed back is the one
    the bytes have in the reader's byte order. *)
Lemma to_order_decode E native (bswap : Z -> Z) (n : nat) bs :
  (forall l, length l = n -> Forall is_byte l ->
             bswap (le_combine l) = le_combine (rev l)) ->
  length bs = n -> Forall is_byte bs ->
  to_order E native bswap (load native bs) = decode E bs.
Proof.
  intros Hrev Hlen Hb. unfold to_order, load, decode.
  destruct E, native; simpl; try reflexivity.
  - rewrite Hrev by (rewrite ?length_rev; auto using Forall_rev).
    apply f_equal, rev_involutive.
  - apply Hrev; assumption.
Qed.

(** X27. The numeric reads of a well-formed reader. With enough bytes
    left, [read_u16], [read_u32] and [read_u64] return the value the next
    2, 4 or 8 bytes have in the reader's byte order [E], whatever the byte
    order of the platform, and move the position past them; [read_u8]
    returns the next byte; [peek_u16] returns what [read_u16] would. With
    fewer bytes left each read throws [std::out_of_range] and leaves the
    reader as it was. *)
Theorem read_uint_decodes E native r :
  wf r ->
  (position_ r + 1 <= size_ r ->
     read_u8 r = (Ret (nth 0 (rest r) 0), set_pos r (position_ r + 1)))
  /\ (position_ r + 2 <= size_ r ->
     read_u16 E native r
     = (Ret (decode E (firstn 2 (rest r))), set_pos r (position_ r + 2))
     /\ peek_u16 E native r = Ret (decode E (firstn 2 (rest r))))
  /\ (position_ r + 4 <= size_ r ->
     read_u32 E native r
     = (Ret (decode E (firstn 4 (rest r))), set_pos r (position_ r + 4)))
  /\ (position_ r + 8 <= size_ r ->
     read_u64 E native r
     = (Ret (decode E (firstn 8 (rest r))), set_pos r (position_ r + 8)))
  /\ (size_ r < position_ r + 1 ->
     exists what, read_u8 r = (Raise (out_of_range what), r))
  /\ (size_ r < position_ r + 2 ->
     exists what, read_u16 E native r = (Raise (out_of_range what), r))
  /\ (size_ r < position_ r + 4 ->
     exists what, read_u32 E native r = (Raise (out_of_range what), r))
  /\ (size_ r < position_ r + 8 ->
     exists what, read_u64 E native r = (Raise (out_of_range what), r)).
Proof.
  intros Hwf. pose proof Hwf as (Hsz & Hs & Hp & _).
  assert (Hadd : forall n, 0 <= n <= 8 ->
            Word.add (position_ r) n = position_ r + n)
    by (intros n Hn; apply pos_add; try rewrite modulus_eq; auto; lia).
  assert (Hin : forall n k (bswap : Z -> Z), 0 <= n <= 8 -> Z.to_nat n = k ->
            (forall l, length l = k -> Forall is_byte l ->
                       bswap (le_combine l) = le_combine (rev l)) ->
            position_ r + n <= size_ r ->
            bytes_at r (position_ r) n = Some (firstn k (rest r)) /\
            to_order E native bswap (load native (firstn k (rest r)))
            = decode E (firstn k (rest r))).
  { intros n k bswap Hn Hk Hrev Hfit.
    destruct (bytes_at_inside r n Hwf ltac:(lia) Hfit) as (E1 & E2 & E3).
    rewrite Hk in *. split; [exact E1 |].
    apply (to_order_decode E native bswap k); assumption. }
  repeat split.
  - intros Hfit. unfold read_u8. rewrite Hadd by lia.
    destruct (Z.geb_spec (position_ r) (size_ r)); [lia |].
    unfold rest. rewrite nth_error_nth' with (d := 0) by lia.
    rewrite nth_skipn, Nat.add_0_r. reflexivity.
  - unfold read_u16. rewrite Hadd by lia.
    destruct (Z.gtb_spec (position_ r + 2) (size_ r)); [lia |].
    destruct (Hin 2 2%nat bswap_16 ltac:(lia) eq_refl bswap_16_le_combine H)
      as [E1 E2].
    rewrite E1, E2. reflexivity.
  - unfold peek_u16. rewrite Hadd by lia.
    destruct (Z.gtb_spec (position_ r + 2) (size_ r)); [lia |].
    destruct (Hin 2 2%nat bswap_16 ltac:(lia) eq_refl bswap_16_le_combine H)
      as [E1 E2].
    rewrite E1, E2. reflexivity.
  - intros Hfit. unfold read_u32. rewrite Hadd by lia.
    destruct (Z.gtb_spec (position_ r + 4) (size_ r)); [lia |].
    destruct (Hin 4 4%nat bswap_32 ltac:(lia) eq_refl bswap_32_le_combine Hfit)
      as [E1 E2].
    rewrite E1, E2. reflexivity.
  - intros Hfit. unfold read_u64. rewrite Hadd by lia.
    destruct (Z.gtb_spec (position_ r + 8) (size_ r)); [lia |].
    destruct (Hin 8 8%nat bswap_64 ltac:(lia) eq_refl bswap_64_le_combine Hfit)
      as [E1 E2].
    rewrite E1, E2. reflexivity.
  - intros Hout. unfold read_u8.
    destruct (Z.geb_spec (position_ r) (size_ r)); [eauto | lia].
  - intros Hout. unfold read_u16. rewrite Hadd by lia.
    destruct (Z.gtb_spec (position_ r + 2) (size_ r)); [eauto | lia].
  - intros Hout. unfold read_u32. rewrite Hadd by lia.
    destruct (Z.gtb_spec (position_ r + 4) (size_ r)); [eauto | lia].
  - intros Hout. unfold read_u64. rewrite Hadd by lia.
    destruct (Z.gtb_spec (position_ r + 8) (size_ r)); [eauto | lia].
Qed.

End ReaderFacts.

Section ReaderState.
Import Word IoTypes MemoryReader.

Lemma set_pos_wf r pos : wf r -> 0 <= pos <= size_ r -> wf (set_pos r pos).
Proof.
  intros (Hsz & Hs & Hp & Hb) Hpos. unfold wf. simpl. auto.
Qed.

Lemma find_zero_some bs : forall k,
  find_zero bs = Some k ->
  exists tail, bs = firstn k bs ++ 0 :: tail /\
               length (firstn k bs) = k /\
               Forall (fun b => b <> 0) (firstn k bs).
Proof.
  induction bs as [| b bs IH]; intros k; simpl; [discriminate |].
  destruct (Z.eqb_spec b 0) as [-> | Hnz].
  - intros [= <-]. exists bs. simpl. auto.
  - destruct (find_zero bs) as [k' |] eqn:E; [| discriminate].
    intros [= <-]. destruct (IH k' eq_refl) as (tail & H1 & H2 & H3).
    exists tail. simpl. rewrite <- H1, H2. auto.
Qed.

Lemma find_zero_none bs :
  find_zero bs = None -> Forall (fun b => b <> 0) bs.
Proof.
  induction bs as [| b bs IH]; simpl; [constructor |].
  destruct (Z.eqb_spec b 0) as [| Hnz]; [discriminate |].
  destruct (find_zero bs); [discriminate |]. auto.
Qed.

Lemma read_cstring_cases r :
  wf r ->
  exists s r',
    read_cstring r = (Ret s, r') /\ wf r' /\
    Forall (fun b => b <> 0) s /\
    ((rest r = s /\ position_ r' = size_ r) \/
     (exists tail, rest r = s ++ 0 :: tail /\
                   position_ r' = position_ r + Z.of_nat (length s) + 1)).
Proof.
  intros Hwf. pose proof Hwf as (Hsz & Hs & Hp & _).
  pose proof (rest_length r Hwf) as Hl.
  pose proof (remaining_eq r Hwf) as Hrem.
  unfold read_cstring. rewrite Hrem.
  destruct (bytes_at_inside r (size_ r - position_ r) Hwf) as (E & _);
    [lia | lia |].
  rewrite E, firstn_all2 by lia.
  destruct (find_zero (rest r)) as [k |] eqn:Ez.
  - destruct (find_zero_some _ _ Ez) as (tail & H1 & H2 & H3).
    assert (Hk : Z.of_nat k + 1 <= size_ r - position_ r).
    { pose proof (f_equal (@length Z) H1) as HL.
      rewrite length_app, H2 in HL. simpl length in HL. lia. }
    assert (Ea : Word.add (position_ r) (Word.add (Z.of_nat k) 1)
                 = position_ r + Z.of_nat k + 1).
    { assert (E1 : Word.add (Z.of_nat k) 1 = Z.of_nat k + 1).
      { unfold Word.add. apply wrap_small. unfold in_range.
        rewrite modulus_eq. lia. }
      rewrite E1. unfold Word.add.
      rewrite wrap_small by (unfold in_range; rewrite modulus_eq; lia). lia. }
    eexists. eexists. split; [reflexivity |]. cbv zeta. rewrite Ea.
    split; [apply set_pos_wf; [exact Hwf | lia] |].
    split; [exact H3 |]. right. exists tail. simpl. rewrite H2. auto.
  - assert (Ea : Word.add (position_ r)
                   (Word.add (Word.sub (size_ r) (position_ r)) 0) = size_ r).
    { assert (E1 : Word.sub (size_ r) (position_ r) = size_ r - position_ r).
      { unfold Word.sub. apply wrap_small. unfold in_range.
        rewrite modulus_eq. lia. }
      rewrite E1. unfold Word.add.
      rewrite (wrap_small (size_ r - position_ r + 0))
        by (unfold in_range; rewrite modulus_eq; lia).
      rewrite wrap_small by (unfold in_range; rewrite modulus_eq; lia). lia. }
    eexists. eexists. split; [reflexivity |]. cbv zeta. rewrite Ea.
    split; [apply set_pos_wf; [exact Hwf | lia] |].
    split; [apply find_zero_none; exact Ez |]. left. simpl. auto.
Qed.

(** A read of [n] bytes: inside the buffer, past its end, or with a
    count that wraps [position_ + n] around. *)
Lemma block_read_cases r n :
  wf r -> in_range n ->
  (position_ r + n <= size_ r /\
   (Word.add (position_ r) n >? size_ r) = false /\
   Word.add (position_ r) n = position_ r + n /\
   bytes_at r (position_ r) n = Some (firstn (Z.to_nat n) (rest r)))
  \/ (size_ r < position_ r + n < modulus /\
      (Word.add (position_ r) n >? size_ r) = true)
  \/ (modulus <= position_ r + n /\
      (Word.add (position_ r) n >? size_ r) = false /\
      bytes_at r (position_ r) n = None).
Proof.
  intros Hwf Hn. pose proof Hwf as (_ & Hs & Hp & _). unfold in_range in Hn.
  destruct (Z.lt_ge_cases (position_ r + n) modulus) as [Hno | Hw].
  - rewrite (pos_add r n Hwf) by lia.
    destruct (Z.gtb_spec (position_ r + n) (size_ r)); [right; left; lia |].
    left. destruct (bytes_at_inside r n Hwf) as (E & _); [lia | lia |]. auto.
  - right; right. split; [exact Hw |].
    assert (Ew : Word.add (position_ r) n = position_ r + n - modulus).
    { unfold Word.add, wrap. symmetry.
      apply Z.mod_unique with (q := 1); rewrite ?modulus_eq in *; lia. }
    rewrite Ew. split.
    + destruct (Z.gtb_spec (position_ r + n - modulus) (size_ r)); [lia | auto].
    + apply bytes_at_outside; [exact Hwf |]. rewrite modulus_eq in *. lia.
Qed.

(** X28. The position of a well-formed reader never leaves the buffer.
    The constructor accepts a start position up to the buffer's size and
    throws [std::out_of_range] beyond it; [set_position] moves to the given
    position or, past the end, to the end; [skip] moves forward by the given
    count or to the end (for a count that does not wrap [position_ + bytes]
    around); every read and every move leaves [0 <= position <= size], the
    buffer untouched and [remaining() == size() - position()]. *)
Theorem reader_position_bounds E native r :
  wf r ->
  remaining r = size r - position r
  /\ (forall pos, 0 <= pos ->
        wf (set_position r pos) /\
        position (set_position r pos) = Z.min pos (size r))
  /\ (forall bytes, in_range bytes ->
        wf (skip r bytes) /\
        (position r + bytes < modulus ->
         position (skip r bytes) = Z.min (position r + bytes) (size r)))
  /\ wf (snd (read_u8 r)) /\ wf (snd (read_u16 E native r))
  /\ wf (snd (read_u32 E native r)) /\ wf (snd (read_u64 E native r))
  /\ wf (snd (read_cstring r))
  /\ (forall n dest, in_range n ->
        wf (snd (read_string r n)) /\ wf (snd (read_bytes r dest n)))
  /\ (forall buffer start,
        Forall is_byte buffer -> Z.of_nat (length buffer) <= 2 ^ 63 - 1 ->
        0 <= start ->
        (start <= Z.of_nat (length buffer) ->
         ctor buffer start = Ret (mk buffer (Z.of_nat (length buffer)) start)
         /\ wf (mk buffer (Z.of_nat (length buffer)) start))
        /\ (Z.of_nat (length buffer) < start ->
            exists what, ctor buffer start = Raise (out_of_range what))).
Proof.
  intros Hwf. pose proof Hwf as (Hsz & Hs & Hp & Hb).
  assert (Hfixed : forall n, 0 <= n <= 8 ->
            (Word.add (position_ r) n >? size_ r) = false ->
            wf (set_pos r (Word.add (position_ r) n))).
  { intros n Hn Hchk. rewrite (pos_add r n Hwf) in *
      by (try rewrite modulus_eq; lia).
    apply set_pos_wf; [exact Hwf |].
    destruct (Z.gtb_spec (position_ r + n) (size_ r)); [discriminate | lia]. }
  split; [apply remaining_eq; exact Hwf |].
  split; [| split; [| split; [| split; [| split; [| split; [| split; [| split]]]]]]].
  - intros pos Hpos. unfold set_position, position, size.
    destruct (Z.gtb_spec pos (size_ r)); simpl.
    + split; [apply set_pos_wf; [exact Hwf | lia] | lia].
    + split; [apply set_pos_wf; [exact Hwf | lia] | lia].
  - intros bytes Hbytes. unfold skip, position, size. simpl. split.
    + apply set_pos_wf; [exact Hwf |].
      pose proof (wrap_range (position_ r + bytes)) as Hw.
      unfold Word.add, in_range in *. lia.
    + intros Hno. rewrite (pos_add r bytes Hwf);
        [reflexivity | unfold in_range in Hbytes; lia | exact Hno].
  - unfold read_u8.
    destruct (Z.geb_spec (position_ r) (size_ r)); [exact Hwf |].
    destruct (nth_error (data_ r) (Z.to_nat (position_ r))); [| exact Hwf].
    simpl. apply (Hfixed 1); [lia |].
    rewrite (pos_add r 1 Hwf) by (try rewrite modulus_eq; lia).
    destruct (Z.gtb_spec (position_ r + 1) (size_ r)); [lia | reflexivity].
  - unfold read_u16.
    destruct (Word.add (position_ r) 2 >? size_ r) eqn:Hchk; [exact Hwf |].
    destruct (bytes_at r (position_ r) 2); [| exact Hwf].
    apply (Hfixed 2); [lia | exact Hchk].
  - unfold read_u32.
    destruct (Word.add (position_ r) 4 >? size_ r) eqn:Hchk; [exact Hwf |].
    destruct (bytes_at r (position_ r) 4); [| exact Hwf].
    apply (Hfixed 4); [lia | exact Hchk].
  - unfold read_u64.
    destruct (Word.add (position_ r) 8 >? size_ r) eqn:Hchk; [exact Hwf |].
    destruct (bytes_at r (position_ r) 8); [| exact Hwf].
    apply (Hfixed 8); [lia | exact Hchk].
  - destruct (read_cstring_cases r Hwf) as (s & r' & Eq & Hwf' & _).
    rewrite Eq. exact Hwf'.
  - intros n dest Hn.
    assert (Hblock : match bytes_at r (position_ r) n with
                     | Some _ => (Word.add (position_ r) n >? size_ r) = false ->
                                 wf (set_pos r (Word.add (position_ r) n))
                     | None => True
                     end).
    { destruct (block_read_cases r n Hwf Hn)
        as [(Hfit & _ & Ea & Eq) | [(_ & Hchk) | (_ & _ & Eq)]].
      - rewrite Eq, Ea. intros _. apply set_pos_wf; [exact Hwf |].
        unfold in_range in Hn. lia.
      - destruct (bytes_at r (position_ r) n); [| trivial].
        rewrite Hchk. discriminate.
      - rewrite Eq. trivial. }
    unfold read_string, read_bytes. split.
    + destruct (Word.add (position_ r) n >? size_ r); [exact Hwf |].
      destruct (bytes_at r (position_ r) n); [apply Hblock; reflexivity |].
      exact Hwf.
    + destruct (dest =? 0); [exact Hwf |].
      destruct (Word.add (position_ r) n >? size_ r); [exact Hwf |].
      destruct (bytes_at r (position_ r) n); [apply Hblock; reflexivity |].
      exact Hwf.
  - intros buffer start Hbuf Hlen Hstart. unfold ctor. split.
    + intros Hle. destruct (Z.gtb_spec start (Z.of_nat (length buffer)));
        [lia |].
      split; [reflexivity |]. unfold wf. simpl. auto.
    + intros Hgt. destruct (Z.gtb_spec start (Z.of_nat (length buffer)));
        [eauto | lia].
Qed.

(** X29. Strings and raw bytes from a well-formed reader. [read_cstring]
    never throws: it returns the bytes up to the first zero byte, which it
    steps over, or all remaining bytes when there is none, and the string
    it returns holds no zero byte. [read_string] and [read_bytes] return
    exactly the next [n] bytes and move past them when [n] bytes remain;
    they throw [std::out_of_range], leaving the reader as it was, when
    fewer remain and [position_ + n] does not wrap around; [read_bytes]
    throws [std::invalid_argument] for a null destination. *)
Theorem read_strings_spec r :
  wf r ->
  (exists s r',
      read_cstring r = (Ret s, r') /\
      Forall (fun b => b <> 0) s /\
      ((rest r = s /\ position_ r' = size_ r) \/
       (exists tail, rest r = s ++ 0 :: tail /\
                     position_ r' = position_ r + Z.of_nat (length s) + 1)))
  /\ (forall n dest, 0 <= n -> position_ r + n <= size_ r ->
        read_string r n
        = (Ret (firstn (Z.to_nat n) (rest r)), set_pos r (position_ r + n))
        /\ length (firstn (Z.to_nat n) (rest r)) = Z.to_nat n
        /\ (dest <> 0 ->
            read_bytes r dest n
            = (Ret (firstn (Z.to_nat n) (rest r)),
               set_pos r (position_ r + n))))
  /\ (forall n dest, size_ r < position_ r + n < modulus ->
        (exists what, read_string r n = (Raise (out_of_range what), r))
        /\ (dest <> 0 ->
            exists what, read_bytes r dest n = (Raise (out_of_range what), r)))
  /\ (forall n, exists what,
        read_bytes r 0 n = (Raise (invalid_argument what), r)).
Proof.
  intros Hwf. pose proof Hwf as (Hsz & Hs & Hp & Hb).
  split; [| split; [| split]].
  - destruct (read_cstring_cases r Hwf) as (s & r' & E & _ & H1 & H2).
    exists s, r'. auto.
  - intros n dest Hn Hfit.
    assert (Hr : in_range n) by (unfold in_range; rewrite modulus_eq; lia).
    destruct (bytes_at_inside r n Hwf Hn Hfit) as (E & Hl & _).
    assert (Ea : Word.add (position_ r) n = position_ r + n)
      by (apply pos_add; try rewrite modulus_eq; auto; lia).
    unfold read_string, read_bytes. rewrite Ea, E.
    destruct (Z.gtb_spec (position_ r + n) (size_ r)); [lia |].
    split; [reflexivity |]. split; [exact Hl |].
    intros Hd. destruct (Z.eqb_spec dest 0); [contradiction | reflexivity].
  - intros n dest Hout.
    assert (Ea : Word.add (position_ r) n = position_ r + n)
      by (apply pos_add; auto; lia).
    unfold read_string, read_bytes. rewrite Ea.
    destruct (Z.gtb_spec (position_ r + n) (size_ r)); [| lia].
    split; [eauto |].
    intros Hd. destruct (Z.eqb_spec dest 0); [contradiction | eauto].
  - intros n. unfold read_bytes. simpl. eauto.
Qed.

(** X30. The bounds check of [read_bytes] adds the count to the position
    in [size_t] arithmetic: a count large enough to wrap [position_ + bytes]
    around passes the check although the bytes asked for are not in the
    buffer, so the call reaches its copy instead of throwing
    [std::out_of_range]. *)
Theorem read_bytes_wrapped_count r n dest :
  wf r -> in_range n -> modulus <= position_ r + n -> dest <> 0 ->
  (Word.add (position_ r) n >? size_ r) = false
  /\ bytes_at r (position_ r) n = None
  /\ read_bytes r dest n = (Outside, r).
Proof.
  intros Hwf Hn Hw Hd.
  destruct (block_read_cases r n Hwf Hn)
    as [(Hfit & _) | [(Hlt & _) | (_ & Hchk & Eq)]].
  - destruct Hwf as (_ & Hs & Hp & _). rewrite modulus_eq in Hw. lia.
  - lia.
  - split; [exact Hchk |]. split; [exact Eq |].
    unfold read_bytes. rewrite Hchk, Eq.
    destruct (Z.eqb_spec dest 0); [contradiction | auto].
Qed.

End ReaderState.

Section ReaderWitnesses.
Import Word IoTypes MemoryReader IoDemo.

Lemma reader0_wf : wf reader0.
Proof.
  unfold wf, reader0, buffer0. cbn [data_ size_ position_].
  split; [reflexivity |].
  split; [change (2 ^ 63) with 9223372036854775808; lia |].
  split; [lia |].
  repeat (constructor; [unfold is_byte; lia |]). constructor.
Defined.

Lemma reader1_wf : wf reader1.
Proof.
  unfold wf, reader1, text0. cbn [data_ size_ position_].
  split; [reflexivity |].
  split; [change (2 ^ 63) with 9223372036854775808; lia |].
  split; [lia |].
  repeat (constructor; [unfold is_byte; lia |]). constructor.
Defined.

(** [test_memory_reader]: the little-endian reader returns [0x04030201]. *)
Example test_memory_reader :
  read_u32 kLittle kLittle reader0 = (Ret 0x04030201, set_pos reader0 4)
  /\ read_u32 kLittle kBig reader0 = (Ret 0x04030201, set_pos reader0 4)
  /\ read_u32 kBig kLittle reader0 = (Ret 0x01020304, set_pos reader0 4).
Proof. vm_compute. auto. Qed.

Lemma read_uint_decodes_witness :
  read_u32 kLittle kBig reader0
  = (Ret (decode kLittle (firstn 4 (rest reader0))),
     set_pos reader0 (position_ reader0 + 4)).
Proof.
  refine (proj1 (proj2 (proj2 (read_uint_decodes kLittle kBig reader0
                                 reader0_wf))) _).
  vm_compute. discriminate.
Defined.

Lemma reader_position_bounds_witness :
  position (set_position reader0 9) = Z.min 9 (size reader0).
Proof.
  refine (proj2 (proj1 (proj2 (reader_position_bounds kLittle kLittle reader0
                                 reader0_wf)) 9 _)).
  lia.
Defined.

Example read_cstring_reader1 :
  read_cstring reader1 = (Ret [105], set_pos reader1 3)
  /\ read_cstring (set_pos reader1 3) = (Ret [121; 111], set_pos reader1 5).
Proof. vm_compute. auto. Qed.

Lemma read_strings_spec_witness :
  read_string reader1 2
  = (Ret (firstn (Z.to_nat 2) (rest reader1)),
     set_pos reader1 (position_ reader1 + 2)).
Proof.
  refine (proj1 (proj1 (proj2 (read_strings_spec reader1 reader1_wf))
                   2 1 _ _)).
  - lia.
  - vm_compute. discriminate.
Defined.

Lemma read_bytes_wrapped_count_witness :
  read_bytes reader1 4096 (modulus - 1) = (Outside, reader1).
Proof.
  refine (proj2 (proj2 (read_bytes_wrapped_count reader1 (modulus - 1) 4096
                          reader1_wf _ _ _))).
  - unfold in_range. rewrite modulus_eq. lia.
  - unfold reader1. cbn [position_]. lia.
  - lia.
Defined.

End ReaderWitnesses.
